(** * opyplus / oplus [util.py]: a shallow embedding and its properties

    The development follows [src/opyplus/util.py] and, where the two
    revisions differ, [src/oplus/util.py]:

    - Python [str] is [string] (one [ascii] per code point, so the text
      that can be written down is the Latin-1 range), [bytes] is
      [list byte], an [int] is [Z];
    - a call that can raise returns a [result]: [Ok v] or [Raise e];
    - the file system is a finite map from path strings to nodes;
    - a thread is a program counter in a state shared with the others,
      and a run is a sequence of steps of an interleaving relation. *)

From Stdlib Require Import ZArith QArith Lia Bool Ascii String List.
From Stdlib.Strings Require Import Byte.
From Stdlib Require Import DecimalString.
From Stdlib Require DecimalZ.
From Equations Require Import Equations.
From stdpp Require Import base option list gmap strings.

Import ListNotations.
Local Open Scope string_scope.
Local Open Scope list_scope.
Local Open Scope Z_scope.

(** ** Python values and exceptions *)

Inductive exn : Type :=
  | ValueError (msg : string)
  | FileNotFoundError (msg : string)
  | UnicodeDecodeError
  | OSError (msg : string).

Inductive result (A : Type) : Type :=
  | Ok (v : A)
  | Raise (e : exn).

Arguments Ok {A} v.
Arguments Raise {A} e.

(** Sequencing: an exception skips what follows. The notation
    [x ← r; k] is stdpp's, for this instance. *)
#[global] Instance result_bind : MBind result := fun A B k r =>
  match r with
  | Ok v => k v
  | Raise e => Raise e
  end.

#[global] Instance result_ret : MRet result := fun A v => Ok v.

(** [[f(x) for x in xs]]: the elements are evaluated from left to right
    and the first exception leaves the comprehension. *)
Fixpoint comprehension {A B : Type} (f : A -> result B) (xs : list A)
  : result (list B) :=
  match xs with
  | [] => Ok []
  | x :: xs' => y ← f x; ys ← comprehension f xs'; Ok (y :: ys)
  end.

(** ** Strings as Python has them *)

Module PyStr.

(** [s.split(sep)] for a separator of one character: every occurrence
    cuts, so the result has one more element than [s] has separators
    and is never empty. *)
Fixpoint split (sep : ascii) (s : string) : list string :=
  match s with
  | EmptyString => [EmptyString]
  | String c s' =>
      if Ascii.eqb c sep then EmptyString :: split sep s'
      else match split sep s' with
           | w :: ws => String c w :: ws
           | [] => [String c EmptyString]
           end
  end.

(** [sep.join(parts)] *)
Fixpoint join (sep : string) (parts : list string) : string :=
  match parts with
  | [] => EmptyString
  | [p] => p
  | p :: ps => p +:+ sep +:+ join sep ps
  end.

(** [s[i:]] for any integer [i]: a negative index counts from the end,
    and an index outside the string is clamped to it. *)
Definition slice_from (i : Z) (s : string) : string :=
  let n := Z.of_nat (String.length s) in
  let start := if i <? 0 then Z.max (n + i) 0 else Z.min i n in
  let k := Z.to_nat start in
  substring k (String.length s - k) s.

(** The characters [int()] and [str.strip()] take for white space, among
    the first 256 code points. *)
Definition isspace (c : ascii) : bool :=
  let n := nat_of_ascii c in
  ((9 <=? n) && (n <=? 13) || (28 <=? n) && (n <=? 32)
   || (n =? 133) || (n =? 160))%nat.

Fixpoint lstrip (s : string) : string :=
  match s with
  | String c s' => if isspace c then lstrip s' else s
  | EmptyString => EmptyString
  end.

Fixpoint rstrip (s : string) : string :=
  match s with
  | String c s' =>
      match rstrip s' with
      | EmptyString => if isspace c then EmptyString else String c EmptyString
      | r => String c r
      end
  | EmptyString => EmptyString
  end.

Definition strip (s : string) : string := rstrip (lstrip s).

Definition digit_of (c : ascii) : option Z :=
  let n := nat_of_ascii c in
  if ((48 <=? n) && (n <=? 57))%nat then Some (Z.of_nat n - 48) else None.

(** Where the scanner of a decimal literal stands: nothing read yet,
    just after a digit, just after an underscore. *)
Inductive lit_state : Type := LitStart | LitDigit | LitUnderscore.

Fixpoint digits (st : lit_state) (acc : Z) (s : string) : option Z :=
  match s with
  | EmptyString =>
      match st with LitDigit => Some acc | _ => None end
  | String c s' =>
      match digit_of c with
      | Some d => digits LitDigit (10 * acc + d) s'
      | None =>
          if Ascii.eqb c "_" then
            match st with
            | LitDigit => digits LitUnderscore acc s'
            | _ => None
            end
          else None
      end
  end.

(** [int(s)] in base 10: white space around the literal is dropped, one
    sign is allowed, digits may be grouped by single underscores.
    [None] is the [ValueError] of an invalid literal. *)
Definition parse_int (s : string) : option Z :=
  match strip s with
  | String c r =>
      if Ascii.eqb c "-" then Z.opp <$> digits LitStart 0 r
      else if Ascii.eqb c "+" then digits LitStart 0 r
      else digits LitStart 0 (String c r)
  | EmptyString => None
  end.

(** [c in s] *)
Fixpoint occurs (c : ascii) (s : string) : bool :=
  match s with
  | EmptyString => false
  | String c' s' => Ascii.eqb c' c || occurs c s'
  end.

(** [s.endswith(suffix)] *)
Definition endswith (s suffix : string) : Prop :=
  exists pre : string, s = pre +:+ suffix.

Definition int (s : string) : result Z :=
  match parse_int s with
  | Some z => Ok z
  | None => Raise (ValueError ("invalid literal for int() with base 10: " +:+ s))
  end.

(** [s * n] *)
Fixpoint times (s : string) (n : nat) : string :=
  match n with
  | O => EmptyString
  | S n' => s +:+ times s n'
  end.

(** [str(n)] for an integer [n]: its decimal digits, after a minus sign
    when it is negative. *)
Definition str (n : Z) : string := NilZero.string_of_int (Z.to_int n).

(** The line boundaries of [str.splitlines], among the first 256 code
    points: line feed, vertical tab, form feed, carriage return, the
    file, group and record separators and NEL. *)
Definition is_linebreak (c : ascii) : bool :=
  let n := nat_of_ascii c in
  ((10 <=? n) && (n <=? 13) || (28 <=? n) && (n <=? 30) || (n =? 133))%nat.

(** [s.splitlines(True)]: the lines of [s], each with its end; a carriage
    return and the line feed after it end one line together. *)
Fixpoint splitlines (s : string) : list string :=
  match s with
  | EmptyString => []
  | String c s' =>
      if is_linebreak c then
        match s' with
        | String c' s'' =>
            if Ascii.eqb c (ascii_of_nat 13) && Ascii.eqb c' (ascii_of_nat 10)
            then String c (String c' EmptyString) :: splitlines s''
            else String c EmptyString :: splitlines s'
        | EmptyString => [String c EmptyString]
        end
      else
        match splitlines s' with
        | l :: ls => String c l :: ls
        | [] => [String c EmptyString]
        end
  end.

(** Is [s] free of line boundaries? *)
Fixpoint one_line (s : string) : bool :=
  match s with
  | EmptyString => true
  | String c s' => negb (is_linebreak c) && one_line s'
  end.

(** [textwrap.indent(text, prefix, predicate)]: [prefix] is put before
    every line that [predicate] accepts. *)
Definition indent (text prefix : string) (predicate : string -> bool) : string :=
  String.concat EmptyString
    (map (fun line => if predicate line then prefix +:+ line else line)
       (splitlines text)).

(** Is every character of [s] white space? *)
Fixpoint all_space (s : string) : bool :=
  match s with
  | EmptyString => true
  | String c s' => isspace c && all_space s'
  end.

(** Does [s] begin, or end, with white space? *)
Definition starts_space (s : string) : bool :=
  match s with
  | EmptyString => false
  | String c _ => isspace c
  end.

Fixpoint ends_space (s : string) : bool :=
  match s with
  | EmptyString => false
  | String c EmptyString => isspace c
  | String _ s' => ends_space s'
  end.


End PyStr.

(** ** The file system, the codecs and the streams of the [io] module *)

Inductive node : Type :=
  | File (data : list byte)
  | Dir.

(** The [errors] argument of [open] and [bytes.decode]. *)
Inductive errors_mode : Type := Strict | Ignore.

(** What the functions find around them. [CONF_encoding] is
    [CONF.encoding]; [decode enc errors b] is the text of [b] under the
    codec named [enc] ([None] for the codec of the locale), or [None] for
    a [UnicodeDecodeError]; [detect b] is [chardet.detect(b)["encoding"]].
    The three come from outside [util.py] and are left open here. Every
    name [detect] gives is taken to be a codec that [open] knows, and every
    file of [fs] to be readable. *)
Record world : Type := {
  fs : gmap string node;
  CONF_encoding : string;
  decode : option string -> errors_mode -> list byte -> option string;
  detect : list byte -> option string
}.

(** Instances of [io.TextIOBase]: an [io.StringIO] with its read position,
    and the text wrapper that [open(name, encoding=.., errors=..)] returns
    over the bytes of the file. *)
Inductive text_io : Type :=
  | StringIO (value : string) (pos : nat)
  | TextIOWrapper (name : string) (data : list byte)
      (encoding : option string) (errors : errors_mode).

(** Instances of [io.BufferedIOBase]. *)
Record buffered_io : Type := BytesIO {
  bytes_value : list byte;
  bytes_pos : nat
}.

Inductive value : Type :=
  | VStr (s : string)
  | VBytes (b : list byte)
  | VTextIO (t : text_io)
  | VBufferedIO (b : buffered_io)
  | VNone
  | VInt (z : Z)
  | VObject (cls : string).

Definition isfile (w : world) (path : string) : bool :=
  match fs w !! path with
  | Some (File _) => true
  | _ => false
  end.

(** [open(path, encoding=enc, errors=errs)], for reading. Nothing is
    decoded before the stream is read. *)
Definition open (w : world) (path : string) (enc : option string)
    (errs : errors_mode) : result text_io :=
  match fs w !! path with
  | Some (File data) => Ok (TextIOWrapper path data enc errs)
  | Some Dir => Raise (OSError ("Is a directory: " +:+ path))
  | None => Raise (FileNotFoundError ("No such file or directory: " +:+ path))
  end.

(** [open(path, "rb")] *)
Definition open_rb (w : world) (path : string) : result buffered_io :=
  match fs w !! path with
  | Some (File data) => Ok (BytesIO data 0)
  | Some Dir => Raise (OSError ("Is a directory: " +:+ path))
  | None => Raise (FileNotFoundError ("No such file or directory: " +:+ path))
  end.

(** [b.decode(encoding=enc)], with the default [errors="strict"]. *)
Definition bytes_decode (w : world) (enc : string) (b : list byte) : result string :=
  match decode w (Some enc) Strict b with
  | Some s => Ok s
  | None => Raise UnicodeDecodeError
  end.

(** [f.read()] on a byte stream: what lies after the position. *)
Definition buffered_read (b : buffered_io) : list byte :=
  drop (bytes_pos b) (bytes_value b).

(** [f.read()] on a text stream, to the end. *)
Definition text_read (w : world) (t : text_io) : result string :=
  match t with
  | StringIO v pos => Ok (PyStr.slice_from (Z.of_nat pos) v)
  | TextIOWrapper _ data enc errs =>
      match decode w enc errs data with
      | Some s => Ok s
      | None => Raise UnicodeDecodeError
      end
  end.

(** ** The relay: [_redirect_stream] and [redirect_stream] *)

(** A sink is known by its name; [has_flush] is [hasattr(dst, "flush")]. *)
Record sink : Type := {
  sink_name : string;
  has_flush : bool
}.

(** What one [src.readline()] does: it returns a line, the empty string
    at the end of the stream, or raises [UnicodeDecodeError]. *)
Inductive read_outcome : Type :=
  | Line (content : string)
  | DecodeError (msg : string).

(** What a run leaves behind, in the order it happened. *)
Inductive event : Type :=
  | EWrite (dst : sink) (text : string)
  | EFlush (dst : sink)
  | ELogError (msg : string)
  | EPopen (command : list string)
  | EStart (dst : sink)
  | EWait (timeout : option Q)
  | ESet (dst : sink)
  | EJoin (dst : sink)
  | EClose.

(** A source is the list of what its reads will give; once the list is
    used up every read gives the empty string. *)
Definition readline (src : list read_outcome) : read_outcome * list read_outcome :=
  match src with
  | [] => (Line EmptyString, [])
  | r :: src' => (r, src')
  end.

Inductive loop (A : Type) : Type :=
  | Continue (a : A)
  | Break (a : A).

Arguments Continue {A} a.
Arguments Break {A} a.

Definition inspect {A : Type} (a : A) : {b : A | a = b} := exist _ a eq_refl.

Module Opyplus.

(** The body of the [while] of [_redirect_stream], the test of the flag
    included: [is_set] is what [stop_event.is_set()] answers. *)
Definition _redirect_stream_iteration (dst : sink) (is_set : bool)
    (src : list read_outcome) : loop (list read_outcome) * list event :=
  if is_set then (Break src, [])
  else
    let '(r, src') := readline src in
    let '(content, logged) :=
      match r with
      | Line c => (c, [])
      | DecodeError e => ("unicode decode error", [ELogError e])
      end in
    if String.eqb content EmptyString then (Break src', logged)
    else (Continue src',
          logged ++ [EWrite dst content]
                 ++ (if has_flush dst then [EFlush dst] else [])).

(** [_redirect_stream(src, dst, stop_event, freq)] run on its own
    thread; the body never looks at [freq]. The flag belongs to another
    thread: [stop_event k] is what the [k]-th test of the flag answers.
    The result is what the thread did and what it left unread. The loop
    ends because a source has an end: every iteration that goes on has
    taken a read from it. *)
Equations _redirect_stream (src : list read_outcome) (dst : sink)
    (stop_event : nat -> bool) : list event * list read_outcome
    by wf (length src) lt :=
  _redirect_stream src dst stop_event
    with inspect (_redirect_stream_iteration dst (stop_event 0%nat) src) := {
    | exist _ (Break src', evs) _ => (evs, src')
    | exist _ (Continue src', evs) H =>
        let rest := _redirect_stream src' dst (fun k => stop_event (S k)) in
        (evs ++ fst rest, snd rest) }.
Next Obligation.
  intros src dst stop_event src' evs H _. revert H.
  unfold _redirect_stream_iteration, readline.
  destruct (stop_event 0%nat); [discriminate |].
  destruct src as [| [c | e] src0]; simpl; [discriminate | |].
  - destruct (String.eqb c EmptyString); inversion 1; subst; simpl; lia.
  - inversion 1; subst; simpl; lia.
Qed.


(** *** Threads

    [redirect_stream] runs [_redirect_stream] on a thread of its own. A
    thread is scheduled between two iterations of its loop: one step of
    a relay is one iteration, with the flag as it stands at that
    moment. *)

Inductive thread : Type :=
  | Main
  | Relay (n : nat).

(** The thread [t] of [redirect_stream] with its [stop_event]. *)
Record relay : Type := {
  r_src : list read_outcome;
  r_dst : sink;
  stop_event : bool;
  alive : bool
}.

(** [stop_event = threading.Event(); t = threading.Thread(...);
    t.start()] *)
Definition start (src : list read_outcome) (dst : sink) : relay :=
  {| r_src := src; r_dst := dst; stop_event := false; alive := true |}.

(** [stop_event.set()] *)
Definition set (r : relay) : relay :=
  {| r_src := r_src r; r_dst := r_dst r; stop_event := true; alive := alive r |}.

(** [t.join()]: [None] while the caller has to wait. *)
Definition join (r : relay) : option relay :=
  if alive r then None else Some r.

(** One iteration of the thread; a thread that has left its loop has no
    step. *)
Definition relay_step (r : relay) : option (relay * list event) :=
  if alive r then
    let '(next, evs) :=
      _redirect_stream_iteration (r_dst r) (stop_event r) (r_src r) in
    match next with
    | Continue src' =>
        Some ({| r_src := src'; r_dst := r_dst r;
                 stop_event := stop_event r; alive := true |}, evs)
    | Break src' =>
        Some ({| r_src := src'; r_dst := r_dst r;
                 stop_event := stop_event r; alive := false |}, evs)
    end
  else None.

Definition tagged (t : thread) (evs : list event) : list (thread * event) :=
  map (pair t) evs.

(** *** [redirect_stream] as a context manager

    [with redirect_stream(src, dst): body]. [session_main_step] is the
    generator of [redirect_stream], one statement a step: the event and
    the thread are made and the thread is started, the body runs at the
    [yield], and the [finally] clause sets the event and joins the
    thread. The body is [body] steps of the main thread that leave the
    relay alone; however it ends, the [finally] clause runs. *)

Inductive session_pc : Type :=
  | SEnter                (* stop_event = ...; t.start() *)
  | SBody (todo : nat)    (* yield *)
  | SFinallySet           (* stop_event.set() *)
  | SFinallyJoin          (* t.join() *)
  | SReleased.

Record session : Type := {
  s_pc : session_pc;
  s_relay : option relay;
  s_trace : list (thread * event)
}.

Definition redirect_stream_init : session :=
  {| s_pc := SEnter; s_relay := None; s_trace := [] |}.

Definition session_main_step (src : list read_outcome) (dst : sink)
    (body : nat) (s : session) : option session :=
  match s_pc s with
  | SEnter =>
      Some {| s_pc := SBody body; s_relay := Some (start src dst);
              s_trace := s_trace s ++ [(Main, EStart dst)] |}
  | SBody (S k) =>
      Some {| s_pc := SBody k; s_relay := s_relay s; s_trace := s_trace s |}
  | SBody O =>
      Some {| s_pc := SFinallySet; s_relay := s_relay s; s_trace := s_trace s |}
  | SFinallySet =>
      Some {| s_pc := SFinallyJoin; s_relay := set <$> s_relay s;
              s_trace := s_trace s ++ [(Main, ESet dst)] |}
  | SFinallyJoin =>
      r ← s_relay s;
      r' ← join r;
      Some {| s_pc := SReleased; s_relay := Some r';
              s_trace := s_trace s ++ [(Main, EJoin dst)] |}
  | SReleased => None
  end.

Definition session_relay_step (s : session) : option session :=
  r ← s_relay s;
  '(r', evs) ← relay_step r;
  Some {| s_pc := s_pc s; s_relay := Some r';
          s_trace := s_trace s ++ tagged (Relay 0) evs |}.

Definition redirect_stream_step (src : list read_outcome) (dst : sink)
    (body : nat) (t : thread) (s : session) : option session :=
  match t with
  | Main => session_main_step src dst body s
  | Relay O => session_relay_step s
  | Relay (S _) => None
  end.

(** A schedule names the thread that moves next; a thread that cannot
    move when it is named loses its turn. *)
Fixpoint redirect_stream (src : list read_outcome) (dst : sink)
    (body : nat) (schedule : list thread) (s : session) : session :=
  match schedule with
  | [] => s
  | t :: schedule' =>
      redirect_stream src dst body schedule'
        (default s (redirect_stream_step src dst body t s))
  end.

(** *** [run_subprocess] *)

(** The child process as the supervisor meets it: what its two pipes
    will deliver, how many waits with a timeout expire before it exits
    (a wait without timeout never expires), and its exit code. *)
Record process : Type := {
  p_stdout : list read_outcome;
  p_stderr : list read_outcome;
  expiries : nat;
  returncode : Z
}.

(** The operating system and the interpreter: [Popen] starts the command
    or raises, [sys_stdout] and [sys_stderr] are [sys.stdout] and
    [sys.stderr]. *)
Record system : Type := {
  Popen : list string -> option string -> bool -> result process;
  sys_stdout : sink;
  sys_stderr : sink
}.

(** The arguments of a call. The first statement of the function,
    [sys.encoding = CONF.encoding], sets an attribute that nothing here
    reads. *)
Record call : Type := {
  command : list string;
  cwd : option string;
  stdout : option sink;
  stderr : option sink;
  shell : bool;
  beat_freq : option Q;
  message : string
}.

Definition default_message : string :=
  "subprocess is still running" +:+ String (ascii_of_nat 10) EmptyString.

(** A call that gives the command and leaves every other argument to
    its default. *)
Definition defaults (cmd : list string) : call :=
  {| command := cmd; cwd := None; stdout := None; stderr := None;
     shell := false; beat_freq := None; message := default_message |}.

(** [sub_p.wait(timeout=t)]: [true] when [TimeoutExpired] is raised. *)
Definition wait (timeout : option Q) (p : process) : bool * process :=
  match timeout, expiries p with
  | Some _, S k =>
      (true, {| p_stdout := p_stdout p; p_stderr := p_stderr p;
                expiries := k; returncode := returncode p |})
  | _, _ => (false, p)
  end.

Inductive main_pc : Type :=
  | MPopen          (* with subprocess.Popen(...) as sub_p *)
  | MEnterOut       (* redirect_stream(sub_p.stdout, stdout) *)
  | MEnterErr       (* redirect_stream(sub_p.stderr, stderr) *)
  | MWait           (* sub_p.wait(timeout=beat_freq) *)
  | MBeatWrite      (* stdout.write(message) *)
  | MBeatFlush      (* if hasattr(sys.stdout, "flush"): sys.stdout.flush() *)
  | MExitErrSet     (* leaving the inner manager: stop_event.set() *)
  | MExitErrJoin    (* t.join() *)
  | MExitOutSet     (* leaving the outer manager: stop_event.set() *)
  | MExitOutJoin    (* t.join() *)
  | MClose          (* leaving Popen *)
  | MReturn (code : Z)
  | MRaised (e : exn).

Record supervisor : Type := {
  pc : main_pc;
  sub_p : option process;
  out_t : option relay;
  err_t : option relay;
  trace : list (thread * event)
}.

Definition run_subprocess_init : supervisor :=
  {| pc := MPopen; sub_p := None; out_t := None; err_t := None; trace := [] |}.

Definition stdout_of (os : system) (c : call) : sink :=
  match stdout c with None => sys_stdout os | Some f => f end.

Definition stderr_of (os : system) (c : call) : sink :=
  match stderr c with None => sys_stderr os | Some f => f end.

Definition goto (s : supervisor) (l : main_pc) (evs : list event) : supervisor :=
  {| pc := l; sub_p := sub_p s; out_t := out_t s; err_t := err_t s;
     trace := trace s ++ tagged Main evs |}.

Definition main_step (os : system) (c : call) (s : supervisor)
  : option supervisor :=
  match pc s with
  | MPopen =>
      match Popen os (command c) (cwd c) (shell c) with
      | Raise e =>
          Some {| pc := MRaised e; sub_p := None; out_t := out_t s;
                  err_t := err_t s; trace := trace s |}
      | Ok p =>
          Some {| pc := MEnterOut; sub_p := Some p; out_t := out_t s;
                  err_t := err_t s;
                  trace := trace s ++ [(Main, EPopen (command c))] |}
      end
  | MEnterOut =>
      p ← sub_p s;
      Some {| pc := MEnterErr; sub_p := sub_p s;
              out_t := Some (start (p_stdout p) (stdout_of os c));
              err_t := err_t s;
              trace := trace s ++ [(Main, EStart (stdout_of os c))] |}
  | MEnterErr =>
      p ← sub_p s;
      Some {| pc := MWait; sub_p := sub_p s; out_t := out_t s;
              err_t := Some (start (p_stderr p) (stderr_of os c));
              trace := trace s ++ [(Main, EStart (stderr_of os c))] |}
  | MWait =>
      p ← sub_p s;
      let '(expired, p') := wait (beat_freq c) p in
      Some {| pc := if expired then MBeatWrite else MExitErrSet;
              sub_p := Some p'; out_t := out_t s; err_t := err_t s;
              trace := trace s ++ [(Main, EWait (beat_freq c))] |}
  | MBeatWrite =>
      Some (goto s MBeatFlush [EWrite (stdout_of os c) (message c)])
  | MBeatFlush =>
      Some (goto s MWait
              (if has_flush (sys_stdout os) then [EFlush (sys_stdout os)] else []))
  | MExitErrSet =>
      Some {| pc := MExitErrJoin; sub_p := sub_p s; out_t := out_t s;
              err_t := set <$> err_t s;
              trace := trace s ++ [(Main, ESet (stderr_of os c))] |}
  | MExitErrJoin =>
      r ← err_t s;
      _ ← join r;
      Some (goto s MExitOutSet [EJoin (stderr_of os c)])
  | MExitOutSet =>
      Some {| pc := MExitOutJoin; sub_p := sub_p s;
              out_t := set <$> out_t s; err_t := err_t s;
              trace := trace s ++ [(Main, ESet (stdout_of os c))] |}
  | MExitOutJoin =>
      r ← out_t s;
      _ ← join r;
      Some (goto s MClose [EJoin (stdout_of os c)])
  | MClose =>
      p ← sub_p s;
      Some (goto s (MReturn (returncode p)) [EClose])
  | MReturn _ => None
  | MRaised _ => None
  end.

Definition out_step (s : supervisor) : option supervisor :=
  r ← out_t s;
  '(r', evs) ← relay_step r;
  Some {| pc := pc s; sub_p := sub_p s; out_t := Some r'; err_t := err_t s;
          trace := trace s ++ tagged (Relay 0) evs |}.

Definition err_step (s : supervisor) : option supervisor :=
  r ← err_t s;
  '(r', evs) ← relay_step r;
  Some {| pc := pc s; sub_p := sub_p s; out_t := out_t s; err_t := Some r';
          trace := trace s ++ tagged (Relay 1) evs |}.

Definition run_subprocess_step (os : system) (c : call) (t : thread)
    (s : supervisor) : option supervisor :=
  match t with
  | Main => main_step os c s
  | Relay 0 => out_step s
  | Relay 1 => err_step s
  | Relay _ => None
  end.

(** The call under a schedule of its three threads. *)
Fixpoint run_subprocess (os : system) (c : call) (schedule : list thread)
    (s : supervisor) : supervisor :=
  match schedule with
  | [] => s
  | t :: schedule' =>
      run_subprocess os c schedule'
        (default s (run_subprocess_step os c t s))
  end.

(** What the call gives back once the main thread is through. *)
Definition outcome (s : supervisor) : option (result Z) :=
  match pc s with
  | MReturn code => Some (Ok code)
  | MRaised e => Some (Raise e)
  | _ => None
  end.

(** *** [get_string_buffer] and [to_buffer] *)

Definition get_string_buffer (w : world) (path_or_content : value)
    (expected_extension : string) : result (text_io * option string) :=
  match path_or_content with
  | VStr s =>
      if String.eqb
           (PyStr.slice_from (- Z.of_nat (String.length expected_extension) - 1) s)
           ("." +:+ expected_extension)
      then
        if negb (isfile w s)
        then Raise (FileNotFoundError ("No file at given path: '" +:+ s +:+ "'."))
        else buffer ← open w s (Some (CONF_encoding w)) Strict;
             Ok (buffer, Some s)
      else Ok (StringIO s 0, None)
  | VTextIO t => Ok (t, None)
  | VBytes b =>
      text ← bytes_decode w (CONF_encoding w) b;
      Ok (StringIO text 0, None)
  | VBufferedIO f =>
      text ← bytes_decode w (CONF_encoding w) (buffered_read f);
      Ok (StringIO text 0, None)
  | _ => Raise (ValueError "path_or_content type could not be identified")
  end.

Definition to_buffer (w : world) (buffer_or_path : value)
  : result (option string * value) :=
  match buffer_or_path with
  | VStr s =>
      if negb (isfile w s)
      then Raise (FileNotFoundError ("no file found at given path: " +:+ s))
      else f ← open_rb w s;
           let encoding := detect w (buffered_read f) in
           buffer ← open w s encoding Ignore;
           Ok (Some s, VTextIO buffer)
  | _ => Ok (None, buffer_or_path)
  end.

(** *** [version_str_to_version] *)

Definition version_str_to_version (version_str : string) : result (list Z) :=
  vs ← comprehension PyStr.int (PyStr.split "." version_str);
  let raw_version := vs ++ [0] in
  if (length raw_version <? 3)%nat
  then Raise (ValueError ("incorrect format: " +:+ version_str))
  else Ok (firstn 3 raw_version).

(** *** [sort_df] *)



(** *** The copyright messages

    [version] is [__version__] and [year] is [dt.datetime.now().year]. *)

Definition nl : string := String (ascii_of_nat 10) EmptyString.

Definition get_multi_line_copyright_message (version : string) (year : Z)
    (prefix : string) : string :=
  PyStr.indent
    (PyStr.times "-" 45
       +:+ nl +:+ "Generated by opyplus version " +:+ version
       +:+ nl +:+ "Copyright (c) " +:+ PyStr.str year
              +:+ ", Openergy development team"
       +:+ nl +:+ "http://www.openergy.fr"
       +:+ nl +:+ "https://github.com/openergy/opyplus" +:+ nl
       +:+ PyStr.times "-" 45)
    prefix (fun _ => true)
  +:+ nl +:+ nl.

Definition get_mono_line_copyright_message (version : string) (year : Z) : string :=
  "opyplus version " +:+ version +:+ " - copyright (c) " +:+ PyStr.str year
    +:+ " - Openergy development team".

(** *** [LoggerStreamWriter] and [PrintFunctionStreamWriter] *)

Module LoggerStreamWriter.

(** [self._logger] by its name, and [self._level]. *)
Record t : Type := {
  _logger : string;
  _level : Z
}.

(** [self.write(message)]: the calls of [self._logger.log] it makes, each
    with its level and its message. *)
Definition write (self : t) (message : string) : list (string * Z * string) :=
  let message := PyStr.strip message in
  if String.eqb message EmptyString then []
  else [(_logger self, _level self, message)].

(** The writer as the destination of a relay: the class has a [write]
    and no [flush]. *)
Definition as_sink (self : t) : sink :=
  {| sink_name := _logger self; has_flush := false |}.

End LoggerStreamWriter.

Module PrintFunctionStreamWriter.

(** [self.write(message)]: the arguments [self._print_function] is
    called with. *)
Definition write (message : string) : list string :=
  let message := PyStr.strip message in
  if String.eqb message EmptyString then [] else [message].

End PrintFunctionStreamWriter.

(** The texts that a run has written to [dst], in their order. *)
Definition written_to (dst : sink) (evs : list event) : list string :=
  flat_map
    (fun e =>
       match e with
       | EWrite d text =>
           if String.eqb (sink_name d) (sink_name dst)
              && Bool.eqb (has_flush d) (has_flush dst)
           then [text] else []
       | _ => []
       end) evs.

End Opyplus.

(** ** The earlier revision, [src/oplus/util.py]

    [get_string_buffer] reads the same there; [to_buffer] opens the file
    with the configured encoding. *)

Module Oplus.

Definition get_string_buffer (w : world) (path_or_content : value)
    (expected_extension : string) : result (text_io * option string) :=
  match path_or_content with
  | VStr s =>
      if String.eqb
           (PyStr.slice_from (- Z.of_nat (String.length expected_extension) - 1) s)
           ("." +:+ expected_extension)
      then
        if negb (isfile w s)
        then Raise (FileNotFoundError ("No file at given path: '" +:+ s +:+ "'."))
        else buffer ← open w s (Some (CONF_encoding w)) Strict;
             Ok (buffer, Some s)
      else Ok (StringIO s 0, None)
  | VTextIO t => Ok (t, None)
  | VBytes b =>
      text ← bytes_decode w (CONF_encoding w) b;
      Ok (StringIO text 0, None)
  | VBufferedIO f =>
      text ← bytes_decode w (CONF_encoding w) (buffered_read f);
      Ok (StringIO text 0, None)
  | _ => Raise (ValueError "path_or_content type could not be identified")
  end.

Definition to_buffer (w : world) (buffer_or_path : value)
  : result (option string * value) :=
  match buffer_or_path with
  | VStr s =>
      if negb (isfile w s)
      then Raise (FileNotFoundError ("no file found at given path: " +:+ s))
      else buffer ← open w s (Some (CONF_encoding w)) Strict;
           Ok (Some s, VTextIO buffer)
  | _ => Ok (None, buffer_or_path)
  end.

(** [get_multi_line_copyright_message] of this revision: the two line
    feeds at the end are inside the text that is indented. *)
Definition get_multi_line_copyright_message (version : string) (year : Z)
    (prefix : string) : string :=
  PyStr.indent
    (PyStr.times "-" 45
       +:+ Opyplus.nl +:+ "Generated by oplus version " +:+ version
       +:+ Opyplus.nl +:+ "Copyright (c) " +:+ PyStr.str year
              +:+ ", Openergy development team"
       +:+ Opyplus.nl +:+ "http://www.openergy.fr"
       +:+ Opyplus.nl +:+ "https://github.com/openergy/oplus" +:+ Opyplus.nl
       +:+ PyStr.times "-" 45 +:+ Opyplus.nl +:+ Opyplus.nl)
    prefix (fun _ => true).

End Oplus.

(** ** What the relay is to forward

    The lines a source gives before the end of its stream, and what the
    destination is to receive for each of them. *)

Definition is_eos (r : read_outcome) : bool :=
  match r with
  | Line c => String.eqb c EmptyString
  | DecodeError _ => false
  end.

Fixpoint until_eos (src : list read_outcome) : list read_outcome :=
  match src with
  | [] => []
  | r :: src' => if is_eos r then [] else r :: until_eos src'
  end.

(** The text that the loop holds after a read. *)
Definition content_of (r : read_outcome) : string :=
  match r with
  | Line c => c
  | DecodeError _ => "unicode decode error"
  end.

Definition flushed (dst : sink) : list event :=
  if has_flush dst then [EFlush dst] else [].

Definition forwarded (dst : sink) (r : read_outcome) : list event :=
  match r with
  | Line L => EWrite dst L :: flushed dst
  | DecodeError e => ELogError e :: EWrite dst "unicode decode error" :: flushed dst
  end.

(** The first test, among the first [n], at which the flag is found set;
    [n] when none is. *)
Fixpoint first_set (stop_event : nat -> bool) (n : nat) : nat :=
  match n with
  | O => O
  | S n' =>
      if stop_event O then O
      else S (first_set (fun k => stop_event (S k)) n')
  end.

(** ** What holds of a session at each point of the main thread *)

Definition session_inv (dst : sink) (s : Opyplus.session) : Prop :=
  match Opyplus.s_pc s with
  | Opyplus.SEnter => Opyplus.s_relay s = None
  | Opyplus.SBody _ | Opyplus.SFinallySet =>
      exists r, Opyplus.s_relay s = Some r
  | Opyplus.SFinallyJoin =>
      exists r, Opyplus.s_relay s = Some r
        /\ Opyplus.stop_event r = true
        /\ In (Opyplus.Main, ESet dst) (Opyplus.s_trace s)
  | Opyplus.SReleased =>
      exists r pre, Opyplus.s_relay s = Some r
        /\ Opyplus.stop_event r = true
        /\ Opyplus.alive r = false
        /\ Opyplus.s_trace s = pre ++ [(Opyplus.Main, EJoin dst)]
        /\ In (Opyplus.Main, ESet dst) pre
  end.

(** ** What the main thread of [run_subprocess] does, step by step *)

Module Supervisor.

Import Opyplus.

Definition thread_eqb (a b : thread) : bool :=
  match a, b with
  | Main, Main => true
  | Relay n, Relay m => Nat.eqb n m
  | _, _ => false
  end.

(** The events of one thread, out of a trace. *)
Fixpoint events_of (t : thread) (tr : list (thread * event)) : list event :=
  match tr with
  | [] => []
  | (t', e) :: tr' =>
      if thread_eqb t' t then e :: events_of t tr' else events_of t tr'
  end.

(** How many heartbeats a process is still to cause: none when the wait
    has no timeout. *)
Definition beats_left (c : call) (p : process) : nat :=
  match beat_freq c with
  | None => O
  | Some _ => expiries p
  end.

Section Trace.

Variables (os : system) (c : call).

Definition opening : list event :=
  [EPopen (command c); EStart (stdout_of os c); EStart (stderr_of os c)].

(** A wait that expires and the heartbeat after it. *)
Definition beat : list event :=
  [EWait (beat_freq c); EWrite (stdout_of os c) (message c)]
    ++ flushed (sys_stdout os).

Definition beats (n : nat) : list event := concat (repeat beat n).

(** The wait that sees the process end, and the way out. *)
Definition closing : list event :=
  [EWait (beat_freq c);
   ESet (stderr_of os c); EJoin (stderr_of os c);
   ESet (stdout_of os c); EJoin (stdout_of os c);
   EClose].

(** The events of the main thread of a call that had [n]
    heartbeats. *)
Definition main_trace (n : nat) : list event :=
  opening ++ beats n ++ closing.

(** The same, up to the point [l], [n] heartbeats done. *)
Definition main_trace_at (l : main_pc) (n : nat) : list event :=
  match l with
  | MPopen => []
  | MEnterOut => take 1 opening
  | MEnterErr => take 2 opening
  | MWait => opening ++ beats n
  | MBeatWrite => opening ++ beats n ++ take 1 beat
  | MBeatFlush => opening ++ beats n ++ take 2 beat
  | MExitErrSet => opening ++ beats n ++ take 1 closing
  | MExitErrJoin => opening ++ beats n ++ take 2 closing
  | MExitOutSet => opening ++ beats n ++ take 3 closing
  | MExitOutJoin => opening ++ beats n ++ take 4 closing
  | MClose => opening ++ beats n ++ take 5 closing
  | MReturn _ => main_trace n
  | MRaised _ => []
  end.

(** What holds of the main thread at each of its points, for the
    process [p] that [Popen] returned. *)
Definition main_inv (p : process) (s : supervisor) : Prop :=
  exists n,
    events_of Main (trace s) = main_trace_at (pc s) n
    /\ match pc s with
       | MPopen => sub_p s = None /\ n = O
       | MEnterOut | MEnterErr => sub_p s = Some p /\ n = O
       | MWait =>
           exists p', sub_p s = Some p'
             /\ returncode p' = returncode p
             /\ (n + beats_left c p' = beats_left c p)%nat
       | MBeatWrite | MBeatFlush =>
           exists p', sub_p s = Some p'
             /\ returncode p' = returncode p
             /\ (S n + beats_left c p' = beats_left c p)%nat
       | MReturn code => code = returncode p /\ n = beats_left c p
       | MRaised _ => False
       | _ =>
           exists p', sub_p s = Some p'
             /\ returncode p' = returncode p
             /\ n = beats_left c p
       end.

Definition stopped (t : option relay) : Prop :=
  exists r, t = Some r /\ alive r = false.

Definition told_to_stop (t : option relay) : Prop :=
  exists r, t = Some r /\ stop_event r = true.

(** What holds of the two relays at each point of the main thread. *)
Definition relays_inv (s : supervisor) : Prop :=
  match pc s with
  | MPopen | MEnterOut | MRaised _ => out_t s = None /\ err_t s = None
  | MEnterErr => is_Some (out_t s) /\ err_t s = None
  | MWait | MBeatWrite | MBeatFlush | MExitErrSet =>
      is_Some (out_t s) /\ is_Some (err_t s)
  | MExitErrJoin => is_Some (out_t s) /\ told_to_stop (err_t s)
  | MExitOutSet => is_Some (out_t s) /\ stopped (err_t s)
  | MExitOutJoin => told_to_stop (out_t s) /\ stopped (err_t s)
  | MClose | MReturn _ => stopped (out_t s) /\ stopped (err_t s)
  end.

(** The call can still return the exit code of [p]. *)
Definition can_return (p : process) (s : supervisor) : Prop :=
  exists more,
    pc (run_subprocess os c more s) = MReturn (returncode p).

(** How many steps of the main thread lie before the wait that sees
    the process end is over. *)
Definition steps_to_exit (s : supervisor) : nat :=
  (3 * match sub_p s with Some p' => beats_left c p' | None => O end
   + match pc s with
     | MWait => 1
     | MBeatFlush => 2
     | MBeatWrite => 3
     | _ => 0
     end)%nat.

(** What holds when [Popen] raised [e]. *)
Definition failed_inv (e : exn) (s : supervisor) : Prop :=
  trace s = [] /\ sub_p s = None /\ out_t s = None /\ err_t s = None
  /\ (pc s = MPopen \/ pc s = MRaised e).

End Trace.

End Supervisor.

(** ** How far a relay has come

    [evs] is what the thread has done so far, of a source that was [src]
    when the thread was started: it has forwarded some reads [done_],
    a beginning of the lines of [src]; while it is alive the rest of
    them is still in its source; and when it has stopped without being
    told to, it has forwarded them all. *)

Definition relay_progress (src : list read_outcome) (dst : sink)
    (t : option Opyplus.relay) (evs : list event) : Prop :=
  match t with
  | None => evs = []
  | Some r =>
      Opyplus.r_dst r = dst
      /\ exists done_,
           evs = concat (map (forwarded dst) done_)
           /\ (exists rest, until_eos src = done_ ++ rest)
           /\ (Opyplus.alive r = true ->
               until_eos src = done_ ++ until_eos (Opyplus.r_src r))
           /\ (Opyplus.alive r = false -> Opyplus.stop_event r = false ->
               until_eos src = done_)
  end.

(** ** A small world to run the functions in

    Two codecs written out in full: ["ascii"], which rejects (or, under
    [Ignore], drops) every byte above 127, and Latin-1, which maps each
    byte to the character of the same code and stands for every other
    name. *)

Fixpoint ascii_codec (errs : errors_mode) (b : list byte) : option string :=
  match b with
  | [] => Some EmptyString
  | x :: b' =>
      if (Byte.to_N x <? 128)%N
      then String (ascii_of_byte x) <$> ascii_codec errs b'
      else match errs with
           | Strict => None
           | Ignore => ascii_codec errs b'
           end
  end.

Definition sample_decode (enc : option string) (errs : errors_mode)
    (b : list byte) : option string :=
  match enc with
  | Some name =>
      if String.eqb name "ascii" then ascii_codec errs b
      else Some (string_of_list_byte b)
  | None => Some (string_of_list_byte b)
  end.

Definition sample_out : sink := {| sink_name := "out"; has_flush := true |}.

Definition sample_err : sink := {| sink_name := "err"; has_flush := false |}.

(** A child that writes two lines to its output and one to its error
    stream, outlives two waits and exits with code 3; the one command
    that can be started is [energyplus]. *)
Definition sample_process : Opyplus.process :=
  {| Opyplus.p_stdout := [Line "warming up"; Line "done"];
     Opyplus.p_stderr := [Line "EnergyPlus Completed Successfully."];
     Opyplus.expiries := 2;
     Opyplus.returncode := 3 |}.

Definition sample_system : Opyplus.system :=
  {| Opyplus.Popen := fun cmd _ _ =>
       match cmd with
       | [exe] =>
           if String.eqb exe "energyplus" then Ok sample_process
           else Raise (FileNotFoundError ("No such file or directory: " +:+ exe))
       | _ => Raise (OSError "bad command")
       end;
     Opyplus.sys_stdout := sample_out;
     Opyplus.sys_stderr := sample_err |}.

Definition sample_call (exe : string) : Opyplus.call :=
  {| Opyplus.command := [exe]; Opyplus.cwd := None;
     Opyplus.stdout := None; Opyplus.stderr := None;
     Opyplus.shell := false; Opyplus.beat_freq := Some (1 # 10)%Q;
     Opyplus.message := Opyplus.default_message |}.

(** One file, ["in.idf"], holding the two bytes [63 e9], and one
    directory; the configured encoding is ["ascii"]. *)
Definition sample_world (chardet : list byte -> option string) : world :=
  {| fs := {[ "in.idf" := File [x63; xe9]; "out.idf" := Dir ]};
     CONF_encoding := "ascii";
     decode := sample_decode;
     detect := chardet |}.

(** * Properties *)

(** ** The functions at work *)

Example version_of_two : Opyplus.version_str_to_version "8.5" = Ok [8; 5; 0].
Proof. reflexivity. Qed.

Example version_of_four : Opyplus.version_str_to_version "1.2.3.4" = Ok [1; 2; 3].
Proof. reflexivity. Qed.

Example version_of_one :
  Opyplus.version_str_to_version "9" = Raise (ValueError "incorrect format: 9").
Proof. reflexivity. Qed.

Example version_of_letters :
  Opyplus.version_str_to_version "9.x"
  = Raise (ValueError "invalid literal for int() with base 10: x").
Proof. reflexivity. Qed.

Example slice_of_short : PyStr.slice_from (-4) "ab" = "ab".
Proof. reflexivity. Qed.

Example slice_of_path : PyStr.slice_from (-4) "dir/in.idf" = ".idf".
Proof. reflexivity. Qed.

Example resolve_missing :
  Opyplus.get_string_buffer (sample_world (fun _ => None)) (VStr "no.idf") "idf"
  = Raise (FileNotFoundError "No file at given path: 'no.idf'.").
Proof. reflexivity. Qed.

Example resolve_directory :
  Opyplus.get_string_buffer (sample_world (fun _ => None)) (VStr "out.idf") "idf"
  = Raise (FileNotFoundError "No file at given path: 'out.idf'.").
Proof. reflexivity. Qed.

Example resolve_content :
  Opyplus.get_string_buffer (sample_world (fun _ => None)) (VStr "Version,8.5;") "idf"
  = Ok (StringIO "Version,8.5;" 0, None).
Proof. reflexivity. Qed.

Example relay_to_the_end :
  Opyplus._redirect_stream [Line "a"; Line "b"] sample_err (fun _ => false)
  = ([EWrite sample_err "a"; EWrite sample_err "b"], []).
Proof. reflexivity. Qed.

(** ** Strings *)

Section Strings.

Import PyStr.

Lemma split_no_sep (sep : ascii) (p : string) :
  occurs sep p = false -> split sep p = [p].
Proof.
  induction p as [| c p IH]; simpl; [reflexivity |].
  intros H. apply orb_false_iff in H as [Hc Hp].
  rewrite Hc, (IH Hp). reflexivity.
Qed.

Lemma split_app_sep (sep : ascii) (p rest : string) :
  occurs sep p = false ->
  split sep (p +:+ String sep rest) = p :: split sep rest.
Proof.
  induction p as [| c p IH]; simpl.
  - intros _. rewrite Ascii.eqb_refl. reflexivity.
  - intros H. apply orb_false_iff in H as [Hc Hp].
    rewrite Hc, (IH Hp). reflexivity.
Qed.

(** Cutting a joined string gives the pieces back, when no piece holds
    the separator. *)
Lemma split_join (sep : ascii) (parts : list string) :
  parts <> [] ->
  Forall (fun p => occurs sep p = false) parts ->
  split sep (join (String sep EmptyString) parts) = parts.
Proof.
  induction parts as [| p ps IH]; [congruence |].
  intros _ Hall. inversion Hall as [| ? ? Hp Hps]; subst.
  destruct ps as [| q qs].
  - simpl. apply split_no_sep, Hp.
  - change (join (String sep EmptyString) (p :: q :: qs))
      with (p +:+ String sep (join (String sep EmptyString) (q :: qs))).
    rewrite (split_app_sep _ _ _ Hp), IH; [reflexivity | congruence | exact Hps].
Qed.

Lemma digit_of_not_dot (c : ascii) (d : Z) :
  digit_of c = Some d -> Ascii.eqb c "." = false.
Proof.
  intros H. destruct (Ascii.eqb c ".") eqn:E; [| reflexivity].
  apply Ascii.eqb_eq in E. subst c. discriminate H.
Qed.

Lemma digits_no_dot (s : string) :
  forall st acc z, digits st acc s = Some z -> occurs "." s = false.
Proof.
  induction s as [| c s IH]; simpl; [reflexivity |].
  intros st acc z H. destruct (digit_of c) as [d |] eqn:Ed.
  - rewrite (digit_of_not_dot _ _ Ed). simpl. eapply IH, H.
  - destruct (Ascii.eqb c "_") eqn:Eu; [| discriminate].
    apply Ascii.eqb_eq in Eu. subst c. simpl.
    destruct st; try discriminate. eapply IH, H.
Qed.

Lemma isspace_not_dot (c : ascii) :
  isspace c = true -> Ascii.eqb c "." = false.
Proof.
  intros H. destruct (Ascii.eqb c ".") eqn:E; [| reflexivity].
  apply Ascii.eqb_eq in E. subst c. discriminate H.
Qed.

Lemma occurs_lstrip (s : string) : occurs "." (lstrip s) = occurs "." s.
Proof.
  induction s as [| c s IH]; simpl; [reflexivity |].
  destruct (isspace c) eqn:E; [| reflexivity].
  rewrite (isspace_not_dot _ E). exact IH.
Qed.

Lemma occurs_rstrip (s : string) : occurs "." (rstrip s) = occurs "." s.
Proof.
  induction s as [| c s IH]; simpl; [reflexivity |].
  destruct (rstrip s) as [| c' r] eqn:Er.
  - rewrite <- IH. simpl. destruct (isspace c) eqn:E; simpl.
    + rewrite (isspace_not_dot _ E). reflexivity.
    + rewrite orb_false_r. reflexivity.
  - rewrite <- IH. reflexivity.
Qed.

(** No integer literal holds a dot. *)
Lemma parse_int_no_dot (s : string) (z : Z) :
  parse_int s = Some z -> occurs "." s = false.
Proof.
  unfold parse_int, strip. intros H.
  rewrite <- occurs_lstrip, <- occurs_rstrip.
  destruct (rstrip (lstrip s)) as [| c r]; [discriminate |].
  destruct (Ascii.eqb c "-") eqn:Em.
  - apply Ascii.eqb_eq in Em. subst c. simpl.
    destruct (digits LitStart 0 r) eqn:Ed; [| discriminate].
    eapply digits_no_dot, Ed.
  - destruct (Ascii.eqb c "+") eqn:Ep.
    + apply Ascii.eqb_eq in Ep. subst c. simpl. eapply digits_no_dot, H.
    + eapply digits_no_dot, H.
Qed.

End Strings.

(** ** [version_str_to_version] *)

Section Version.

Import PyStr.

Lemma comprehension_int (parts : list string) (zs : list Z) :
  Forall2 (fun p z => parse_int p = Some z) parts zs ->
  comprehension int parts = Ok zs.
Proof.
  induction 1 as [| p z ps zs' Hp _ IH]; cbn [comprehension]; [reflexivity |].
  rewrite IH. unfold int. rewrite Hp. reflexivity.
Qed.

(** The list that the function cuts to three, for a string of literals. *)
Lemma version_of_literals (parts : list string) (zs : list Z) :
  Forall2 (fun p z => parse_int p = Some z) parts zs ->
  parts <> [] ->
  Opyplus.version_str_to_version (join "." parts) =
    if (length (zs ++ [0%Z]) <? 3)%nat
    then Raise (ValueError ("incorrect format: " +:+ join "." parts))
    else Ok (take 3 (zs ++ [0])).
Proof.
  intros Hlit Hne. unfold Opyplus.version_str_to_version.
  rewrite split_join; [| exact Hne |].
  - rewrite (comprehension_int _ _ Hlit). reflexivity.
  - clear Hne. induction Hlit as [| p z ps zs' Hp _ IH]; constructor.
    + eapply parse_int_no_dot, Hp.
    + exact IH.
Qed.

End Version.



(** ** Slices and suffixes *)

Section Slices.

Import PyStr.

Lemma length_append (a b : string) :
  String.length (a +:+ b) = (String.length a + String.length b)%nat.
Proof.
  induction a as [| c a IH]; [reflexivity |].
  change (String c a +:+ b) with (String c (a +:+ b)). simpl. now rewrite IH.
Qed.

Lemma substring_all (s : string) : substring 0 (String.length s) s = s.
Proof. induction s as [| c s IH]; simpl; [reflexivity | now rewrite IH]. Qed.

Lemma substring_skip (pre suf : string) :
  substring (String.length pre) (String.length suf) (pre +:+ suf) = suf.
Proof.
  induction pre as [| c pre IH].
  - apply substring_all.
  - change (String c pre +:+ suf) with (String c (pre +:+ suf)). simpl. exact IH.
Qed.

Lemma substring_suffix (k : nat) :
  forall s : string, (k <= String.length s)%nat ->
  exists pre, s = pre +:+ substring k (String.length s - k) s.
Proof.
  induction k as [| k IH]; intros s Hk.
  - exists EmptyString. rewrite Nat.sub_0_r, substring_all. reflexivity.
  - destruct s as [| c s]; simpl in Hk; [lia |].
    destruct (IH s) as [pre Hpre]; [lia |].
    exists (String c pre). simpl.
    change (String c pre +:+ ?x) with (String c (pre +:+ x)).
    now rewrite <- Hpre.
Qed.

(** Whatever the index, [s[i:]] is an end of [s]. *)
Lemma slice_from_endswith (i : Z) (s : string) : endswith s (slice_from i s).
Proof.
  unfold endswith, slice_from. cbv zeta. apply substring_suffix.
  destruct (Z.ltb_spec i 0); lia.
Qed.

Lemma slice_from_0 (s : string) : slice_from 0 s = s.
Proof.
  unfold slice_from. cbv zeta. rewrite Z.ltb_irrefl.
  replace (Z.to_nat (Z.min 0 (Z.of_nat (String.length s)))) with 0%nat by lia.
  rewrite Nat.sub_0_r. apply substring_all.
Qed.

(** A non-empty end of [s] is the slice that starts its length from
    the end. *)
Lemma slice_from_suffix (pre suf : string) :
  suf <> EmptyString ->
  slice_from (- Z.of_nat (String.length suf)) (pre +:+ suf) = suf.
Proof.
  intros Hne. unfold slice_from. cbv zeta. rewrite length_append.
  assert (0 < String.length suf)%nat by (destruct suf; simpl; [congruence | lia]).
  replace (- Z.of_nat (String.length suf) <? 0)%Z with true
    by (symmetry; apply Z.ltb_lt; lia).
  replace (Z.to_nat (Z.max (Z.of_nat (String.length pre + String.length suf)
                            + - Z.of_nat (String.length suf)) 0))
    with (String.length pre) by lia.
  replace (String.length pre + String.length suf - String.length pre)%nat
    with (String.length suf) by lia.
  apply substring_skip.
Qed.

(** The test of [get_string_buffer] on the end of the string. *)
Lemma extension_test (s ext : string) :
  String.eqb (slice_from (- Z.of_nat (String.length ext) - 1) s) ("." +:+ ext) = true
  <-> endswith s ("." +:+ ext).
Proof.
  rewrite String.eqb_eq. split.
  - intros H. rewrite <- H. apply slice_from_endswith.
  - intros [pre ->].
    replace (- Z.of_nat (String.length ext) - 1)%Z
      with (- Z.of_nat (String.length ("." +:+ ext)))%Z.
    + apply slice_from_suffix. discriminate.
    + change ("." +:+ ext) with (String "." ext). simpl String.length. lia.
Qed.

End Slices.

(** ** [get_string_buffer] and [to_buffer] *)

Section Resolver.

Import PyStr.

Variable w : world.

Lemma isfile_true (path : string) :
  isfile w path = true <-> exists data, fs w !! path = Some (File data).
Proof.
  unfold isfile. destruct (fs w !! path) as [[data |] |]; split;
    try discriminate; eauto; intros [d Hd]; discriminate.
Qed.

Lemma open_file (path : string) (data : list byte)
    (enc : option string) (errs : errors_mode) :
  fs w !! path = Some (File data) ->
  open w path enc errs = Ok (TextIOWrapper path data enc errs).
Proof. unfold open. now intros ->. Qed.

Lemma open_rb_file (path : string) (data : list byte) :
  fs w !! path = Some (File data) -> open_rb w path = Ok (BytesIO data 0).
Proof. unfold open_rb. now intros ->. Qed.


(** A string that does not end in the extension is content, whatever
    the file system holds. *)
Lemma get_string_buffer_content (s ext : string) :
  ~ endswith s ("." +:+ ext) ->
  Opyplus.get_string_buffer w (VStr s) ext = Ok (StringIO s 0, None).
Proof.
  intros Hno. unfold Opyplus.get_string_buffer.
  destruct (String.eqb _ _) eqn:E; [| reflexivity].
  exfalso. apply Hno, extension_test, E.
Qed.

Lemma get_string_buffer_missing (s ext : string) :
  endswith s ("." +:+ ext) -> isfile w s = false ->
  Opyplus.get_string_buffer w (VStr s) ext
  = Raise (FileNotFoundError ("No file at given path: '" +:+ s +:+ "'.")).
Proof.
  intros Hext Hno. unfold Opyplus.get_string_buffer.
  rewrite (proj2 (extension_test s ext) Hext), Hno. reflexivity.
Qed.

Lemma get_string_buffer_file (s ext : string) (data : list byte) :
  endswith s ("." +:+ ext) -> fs w !! s = Some (File data) ->
  Opyplus.get_string_buffer w (VStr s) ext
  = Ok (TextIOWrapper s data (Some (CONF_encoding w)) Strict, Some s).
Proof.
  intros Hext Hfile. unfold Opyplus.get_string_buffer.
  rewrite (proj2 (extension_test s ext) Hext).
  rewrite (proj2 (isfile_true s) (ex_intro _ data Hfile)). simpl.
  rewrite (open_file _ _ _ _ Hfile). reflexivity.
Qed.

Lemma get_string_buffer_bytes (b : list byte) (ext : string) :
  Opyplus.get_string_buffer w (VBytes b) ext
  = (text ← bytes_decode w (CONF_encoding w) b; Ok (StringIO text 0, None)).
Proof. reflexivity. Qed.


(** The stream that each revision of [to_buffer] opens on a file. *)
Lemma to_buffer_file (s : string) (data : list byte) :
  fs w !! s = Some (File data) ->
  Opyplus.to_buffer w (VStr s)
  = Ok (Some s, VTextIO (TextIOWrapper s data (detect w data) Ignore))
  /\ Oplus.to_buffer w (VStr s)
     = Ok (Some s, VTextIO (TextIOWrapper s data (Some (CONF_encoding w)) Strict)).
Proof.
  intros Hfile. unfold Opyplus.to_buffer, Oplus.to_buffer.
  rewrite (proj2 (isfile_true s) (ex_intro _ data Hfile)). simpl.
  rewrite (open_rb_file _ _ Hfile). simpl.
  rewrite !(open_file _ _ _ _ Hfile). split; reflexivity.
Qed.


End Resolver.

(** C5. When [get_string_buffer] returns, the path it returns is not
    [None] exactly when the input was a string ending in
    [".<expected_extension>"]. A string that does not end so is wrapped in
    an [io.StringIO] with path [None] whatever the file system holds, a
    text stream is returned as it is with path [None], and bytes and byte
    streams give path [None]. *)
Theorem get_string_buffer_path_iff (w : world) (v : value) (ext : string) :
  (forall buffer path,
     Opyplus.get_string_buffer w v ext = Ok (buffer, path) ->
     (path <> None <-> exists s, v = VStr s /\ PyStr.endswith s ("." +:+ ext)))
  /\ (forall s, v = VStr s -> ~ PyStr.endswith s ("." +:+ ext) ->
      Opyplus.get_string_buffer w v ext = Ok (StringIO s 0, None))
  /\ (forall t, v = VTextIO t ->
      Opyplus.get_string_buffer w v ext = Ok (t, None))
  /\ (forall buffer path,
      (exists b, v = VBytes b) \/ (exists f, v = VBufferedIO f) ->
      Opyplus.get_string_buffer w v ext = Ok (buffer, path) -> path = None).
Proof.
  repeat split.
  - intros Hpath. destruct v; try discriminate.
    + exists s. split; [reflexivity |].
      apply extension_test. unfold Opyplus.get_string_buffer in H.
      destruct (String.eqb _ ("." +:+ ext)); [reflexivity |].
      injection H as _ <-. now destruct Hpath.
    + unfold Opyplus.get_string_buffer in H.
      destruct (bytes_decode w (CONF_encoding w) b); cbn in H; [| discriminate].
      injection H as _ <-. now destruct Hpath.
    + cbn in H. injection H as _ <-. now destruct Hpath.
    + unfold Opyplus.get_string_buffer in H.
      destruct (bytes_decode w (CONF_encoding w) (buffered_read b));
        cbn in H; [| discriminate].
      injection H as _ <-. now destruct Hpath.
  - intros (s & -> & Hext) ->.
    destruct (proj1 (isfile_true w s)) as [data Hdata].
    + destruct (isfile w s) eqn:E; [reflexivity |].
      rewrite (get_string_buffer_missing w s ext Hext E) in H. discriminate.
    + rewrite (get_string_buffer_file w s ext data Hext Hdata) in H. discriminate.
  - intros s -> Hno. apply get_string_buffer_content, Hno.
  - intros t ->. reflexivity.
  - intros buffer path [[b ->] | [f ->]] H; unfold Opyplus.get_string_buffer in H.
    + destruct (bytes_decode w (CONF_encoding w) b); cbn in H; [| discriminate].
      now injection H as _ <-.
    + destruct (bytes_decode w (CONF_encoding w) (buffered_read f));
        cbn in H; [| discriminate].
      now injection H as _ <-.
Qed.

Lemma get_string_buffer_path_iff_witness :
  let w := sample_world (fun _ => None) in
  isfile w "in.idf" = true
  /\ ~ PyStr.endswith "in.idf" ("." +:+ "epw")
  /\ Opyplus.get_string_buffer w (VStr "in.idf") "epw" = Ok (StringIO "in.idf" 0, None).
Proof.
  intros w.
  assert (Hno : ~ PyStr.endswith "in.idf" ("." +:+ "epw")).
  { intros H. apply extension_test in H. vm_compute in H. discriminate H. }
  split; [reflexivity |]. split; [exact Hno |].
  exact (proj1 (proj2 (get_string_buffer_path_iff w (VStr "in.idf") "epw"))
           "in.idf" eq_refl Hno).
Defined.

(** C6. For a string that ends in [".<expected_extension>"],
    [get_string_buffer] raises exactly when no file is at that path, the
    error is [FileNotFoundError], and otherwise the file is opened for
    reading with the configured encoding and the string itself is the
    path returned. *)
Theorem get_string_buffer_not_found (w : world) (s ext : string) :
  PyStr.endswith s ("." +:+ ext) ->
  ((exists e, Opyplus.get_string_buffer w (VStr s) ext = Raise e)
   <-> isfile w s = false)
  /\ (isfile w s = false ->
      Opyplus.get_string_buffer w (VStr s) ext
      = Raise (FileNotFoundError ("No file at given path: '" +:+ s +:+ "'.")))
  /\ (isfile w s = true ->
      exists data, fs w !! s = Some (File data)
        /\ Opyplus.get_string_buffer w (VStr s) ext
           = Ok (TextIOWrapper s data (Some (CONF_encoding w)) Strict, Some s)).
Proof.
  intros Hext. repeat split.
  - intros [e He]. destruct (isfile w s) eqn:E; [| reflexivity].
    apply isfile_true in E as [data Hdata].
    rewrite (get_string_buffer_file w s ext data Hext Hdata) in He. discriminate.
  - intros Hno. eexists. apply get_string_buffer_missing; assumption.
  - apply get_string_buffer_missing, Hext.
  - intros [data Hdata]%isfile_true. exists data. split; [exact Hdata |].
    apply get_string_buffer_file; assumption.
Qed.

Lemma get_string_buffer_not_found_witness :
  let w := sample_world (fun _ => None) in
  PyStr.endswith "/no/such/file.idf" ("." +:+ "idf")
  /\ isfile w "/no/such/file.idf" = false
  /\ Opyplus.get_string_buffer w (VStr "/no/such/file.idf") "idf"
     = Raise (FileNotFoundError "No file at given path: '/no/such/file.idf'.").
Proof.
  intros w.
  assert (Hext : PyStr.endswith "/no/such/file.idf" ("." +:+ "idf"))
    by (exists "/no/such/file"; reflexivity).
  split; [exact Hext |]. split; [reflexivity |].
  exact (proj1 (proj2 (get_string_buffer_not_found w _ _ Hext)) eq_refl).
Defined.

(** C7. Resolving bytes and reading the stream that comes back to its end
    is decoding the bytes with the configured encoding: the same text, or
    the same [UnicodeDecodeError]; and the path that comes back is
    [None]. *)
Theorem get_string_buffer_bytes_round_trip (w : world) (b : list byte) (ext : string) :
  ('(buffer, _) ← Opyplus.get_string_buffer w (VBytes b) ext; text_read w buffer)
  = bytes_decode w (CONF_encoding w) b
  /\ match bytes_decode w (CONF_encoding w) b with
     | Ok text =>
         Opyplus.get_string_buffer w (VBytes b) ext = Ok (StringIO text 0, None)
     | Raise e => Opyplus.get_string_buffer w (VBytes b) ext = Raise e
     end.
Proof.
  rewrite get_string_buffer_bytes.
  destruct (bytes_decode w (CONF_encoding w) b) as [text | e]; simpl.
  - split; [| reflexivity]. unfold text_read. simpl Z.of_nat.
    now rewrite slice_from_0.
  - split; reflexivity.
Qed.



(** In the small world, with ["ascii"] configured and a file that holds
    a byte above 127, the stream of [get_string_buffer] raises when it is
    read while the stream of [to_buffer] reads to the end, whatever
    encoding is detected. *)
Lemma sample_world_streams (chardet : list byte -> option string) :
  let w := sample_world chardet in
  exists b1 b2 text,
    Opyplus.to_buffer w (VStr "in.idf") = Ok (Some "in.idf", VTextIO b1)
    /\ Opyplus.get_string_buffer w (VStr "in.idf") "idf" = Ok (b2, Some "in.idf")
    /\ text_read w b1 = Ok text
    /\ text_read w b2 = Raise UnicodeDecodeError.
Proof.
  intros w.
  assert (Hfile : fs w !! "in.idf" = Some (File [x63; xe9])) by reflexivity.
  assert (Hext : PyStr.endswith "in.idf" ("." +:+ "idf"))
    by (exists "in"; reflexivity).
  destruct (to_buffer_file w _ _ Hfile) as [E1 _].
  pose proof (get_string_buffer_file w _ "idf" _ Hext Hfile) as E2.
  assert (Hread : exists text,
    sample_decode (chardet [x63; xe9]) Ignore [x63; xe9] = Some text).
  { unfold sample_decode. destruct (chardet [x63; xe9]) as [name |]; [| eauto].
    destruct (String.eqb name "ascii"); eauto. }
  destruct Hread as [text Htext].
  eexists _, _, text. split; [exact E1 |]. split; [exact E2 |].
  split; [| reflexivity].
  unfold text_read. change (decode w) with sample_decode.
  change (detect w) with chardet. now rewrite Htext.
Qed.




(** ** The relay on its own *)

Section Relay.

Import Opyplus.

Variable dst : sink.

Lemma _redirect_stream_unfold_loop (src : list read_outcome) (stop : nat -> bool) :
  _redirect_stream src dst stop =
    match _redirect_stream_iteration dst (stop 0%nat) src with
    | (Break src', evs) => (evs, src')
    | (Continue src', evs) =>
        let rest := _redirect_stream src' dst (fun k => stop (S k)) in
        (evs ++ fst rest, snd rest)
    end.
Proof.
  rewrite _redirect_stream_equation_1.
  destruct (inspect (_redirect_stream_iteration dst (stop 0%nat) src))
    as [[[src' | src'] evs] H].
  - rewrite _redirect_stream_clause_1_equation_1, H. reflexivity.
  - rewrite _redirect_stream_clause_1_equation_2, H. reflexivity.
Qed.

(** The flag found set: the loop is left, nothing is read or written. *)
Lemma iteration_flag_set (src : list read_outcome) :
  _redirect_stream_iteration dst true src = (Break src, []).
Proof. reflexivity. Qed.

(** The end of the stream: the loop is left, nothing is written. *)
Lemma iteration_eos (src : list read_outcome) :
  until_eos src = [] ->
  _redirect_stream_iteration dst false src = (Break (tail src), []).
Proof.
  destruct src as [| [c | e] src']; simpl; [reflexivity | |].
  - unfold _redirect_stream_iteration. simpl.
    destruct (String.eqb c EmptyString); [reflexivity | discriminate].
  - discriminate.
Qed.

(** A line, or a read that fails to decode: it is forwarded and the
    loop goes on. *)
Lemma iteration_forward (r : read_outcome) (src' : list read_outcome) :
  is_eos r = false ->
  _redirect_stream_iteration dst false (r :: src')
  = (Continue src', forwarded dst r).
Proof.
  unfold _redirect_stream_iteration, forwarded, flushed, is_eos.
  destruct r as [c | e]; simpl.
  - intros ->. reflexivity.
  - reflexivity.
Qed.

(** What the thread does, whenever the flag is set: the lines before the
    first test that finds it set are forwarded, in order, and no
    other. *)
Lemma _redirect_stream_events (src : list read_outcome) :
  forall stop : nat -> bool,
    fst (_redirect_stream src dst stop)
    = concat (map (forwarded dst)
                (take (first_set stop (length (until_eos src))) (until_eos src))).
Proof.
  induction src as [| r src' IH]; intros stop;
    rewrite _redirect_stream_unfold_loop.
  - simpl until_eos. simpl. destruct (stop 0%nat); reflexivity.
  - simpl until_eos. destruct (is_eos r) eqn:Er.
    + simpl first_set. simpl take. simpl concat.
      destruct (stop 0%nat); [reflexivity |].
      rewrite iteration_eos; [reflexivity |]. simpl. now rewrite Er.
    + simpl length. simpl first_set.
      destruct (stop 0%nat); [reflexivity |].
      rewrite (iteration_forward _ _ Er). cbn zeta. simpl fst.
      rewrite IH. reflexivity.
Qed.

Lemma first_set_never (stop : nat -> bool) (n : nat) :
  (forall k, (k < n)%nat -> stop k = false) -> first_set stop n = n.
Proof.
  revert stop. induction n as [| n IH]; intros stop H; [reflexivity |].
  simpl. rewrite (H 0%nat) by lia. f_equal. apply IH.
  intros k Hk. apply H. lia.
Qed.

(** Left by the flag, the loop has read the lines it forwarded and no
    more. *)
Lemma _redirect_stream_unread_flag (src : list read_outcome) :
  forall stop : nat -> bool,
    stop (first_set stop (length (until_eos src))) = true ->
    snd (_redirect_stream src dst stop)
    = drop (first_set stop (length (until_eos src))) src.
Proof.
  induction src as [| r src' IH]; intros stop;
    rewrite _redirect_stream_unfold_loop.
  - simpl. intros ->. reflexivity.
  - simpl until_eos. destruct (is_eos r) eqn:Er.
    + simpl. intros ->. reflexivity.
    + simpl length. simpl first_set.
      destruct (stop 0%nat) eqn:E0; [intros _; reflexivity |].
      intros Hk. rewrite (iteration_forward _ _ Er). cbn zeta. simpl snd.
      rewrite (IH _ Hk). reflexivity.
Qed.

(** Left by the end of the stream, the loop has read the marker too. *)
Lemma _redirect_stream_unread_eos (src : list read_outcome) :
  forall stop : nat -> bool,
    (forall k, (k <= length (until_eos src))%nat -> stop k = false) ->
    snd (_redirect_stream src dst stop) = drop (S (length (until_eos src))) src.
Proof.
  induction src as [| r src' IH]; intros stop Hstop;
    rewrite _redirect_stream_unfold_loop;
    rewrite (Hstop 0%nat (Nat.le_0_l _)).
  - reflexivity.
  - simpl until_eos. destruct (is_eos r) eqn:Er.
    + rewrite iteration_eos; [reflexivity |]. simpl. now rewrite Er.
    + rewrite (iteration_forward _ _ Er). cbn zeta. simpl snd.
      rewrite IH; [reflexivity |]. intros k Hk. apply Hstop.
      simpl. rewrite Er. simpl. lia.
Qed.

End Relay.

(** C2 (as the code has it). The destination receives, in their order,
    the lines the source gives before the end of its stream that are read
    before the flag is found set: each line as it is, or
    ["unicode decode error"] after the error is logged when the read fails
    to decode, each write followed by a flush exactly when the
    destination has one. When the flag is not found set before the marker
    of the end of the stream is read, these are all the lines, and the
    read of the marker ends the loop. *)
Theorem _redirect_stream_forwards (src : list read_outcome) (dst : sink)
    (stop : nat -> bool) :
  fst (Opyplus._redirect_stream src dst stop)
  = concat (map (forwarded dst)
              (take (first_set stop (length (until_eos src))) (until_eos src)))
  /\ ((forall k, (k <= length (until_eos src))%nat -> stop k = false) ->
      Opyplus._redirect_stream src dst stop
      = (concat (map (forwarded dst) (until_eos src)),
         drop (S (length (until_eos src))) src))
  /\ (forall L, forwarded dst (Line L) = EWrite dst L :: flushed dst)
  /\ (forall e, forwarded dst (DecodeError e)
                = ELogError e :: EWrite dst "unicode decode error" :: flushed dst)
  /\ (flushed dst = [EFlush dst] <-> has_flush dst = true)
  /\ (flushed dst = [] <-> has_flush dst = false).
Proof.
  split; [apply _redirect_stream_events |].
  split; [| repeat split; try reflexivity; unfold flushed;
            destruct (has_flush dst); congruence].
  intros Hstop.
  rewrite (surjective_pairing (Opyplus._redirect_stream src dst stop)).
  rewrite _redirect_stream_events, _redirect_stream_unread_eos by exact Hstop.
  rewrite first_set_never by (intros k Hk; apply Hstop; lia).
  now rewrite firstn_all.
Qed.

Lemma _redirect_stream_forwards_witness :
  let src := [Line "a"; DecodeError "bad byte"; Line "b"; Line EmptyString; Line "c"] in
  (forall k, (k <= length (until_eos src))%nat -> (fun _ : nat => false) k = false)
  /\ Opyplus._redirect_stream src sample_out (fun _ => false)
     = ([EWrite sample_out "a"; EFlush sample_out;
         ELogError "bad byte"; EWrite sample_out "unicode decode error";
         EFlush sample_out;
         EWrite sample_out "b"; EFlush sample_out],
        [Line "c"]).
Proof.
  intros src.
  assert (H : forall k, (k <= length (until_eos src))%nat ->
                        (fun _ : nat => false) k = false) by reflexivity.
  split; [exact H |].
  exact (proj1 (proj2 (_redirect_stream_forwards src sample_out _)) H).
Defined.

(** C2 as it is written fails when the flag is set early: of two lines
    the destination receives the first only. *)
Lemma _redirect_stream_stopped_early :
  let src := [Line "a"; Line "b"] in
  let stop := fun k => (1 <=? k)%nat in
  Opyplus._redirect_stream src sample_out stop
  = ([EWrite sample_out "a"; EFlush sample_out], [Line "b"])
  /\ fst (Opyplus._redirect_stream src sample_out stop)
     <> concat (map (forwarded sample_out) (until_eos src)).
Proof.
  assert (E : Opyplus._redirect_stream [Line "a"; Line "b"] sample_out
                (fun k => (1 <=? k)%nat)
              = ([EWrite sample_out "a"; EFlush sample_out], [Line "b"])).
  { now rewrite !_redirect_stream_unfold_loop. }
  cbv zeta. split; [exact E |]. rewrite E. discriminate.
Qed.

(** ** The relay as a thread, and [redirect_stream] around a body *)

Section Session.

Import Opyplus.

Lemma relay_step_set (r : relay) :
  stop_event r = true -> alive r = true ->
  relay_step r
  = Some ({| r_src := r_src r; r_dst := r_dst r;
             stop_event := stop_event r; alive := false |}, []).
Proof. intros Hs Ha. unfold relay_step. rewrite Ha, Hs. reflexivity. Qed.

Lemma relay_step_dead (r : relay) : alive r = false -> relay_step r = None.
Proof. intros Ha. unfold relay_step. now rewrite Ha. Qed.

Lemma relay_step_keeps (r r' : relay) (evs : list event) :
  relay_step r = Some (r', evs) ->
  stop_event r' = stop_event r /\ r_dst r' = r_dst r /\ alive r = true.
Proof.
  unfold relay_step. destruct (alive r); [| discriminate].
  destruct (_redirect_stream_iteration _ _ _) as [[src' | src'] evs0];
    inversion 1; subst; simpl; auto.
Qed.

Variables (src : list read_outcome) (dst : sink) (body : nat).

Lemma redirect_stream_app (a b : list thread) (s : session) :
  redirect_stream src dst body (a ++ b) s
  = redirect_stream src dst body b (redirect_stream src dst body a s).
Proof.
  revert s. induction a as [| t a IH]; intros s; simpl; [reflexivity | apply IH].
Qed.

Lemma session_inv_step (t : thread) (s s' : session) :
  session_inv dst s ->
  redirect_stream_step src dst body t s = Some s' ->
  session_inv dst s'.
Proof.
  unfold session_inv. intros Hinv Hstep.
  destruct t as [| [| n]]; simpl in Hstep; [| | discriminate].
  - (* the main thread *)
    unfold session_main_step in Hstep.
    destruct (s_pc s) as [| [| k] | | |] eqn:Hpc.
    + injection Hstep as <-. simpl. eauto.
    + injection Hstep as <-. simpl. exact Hinv.
    + injection Hstep as <-. simpl. exact Hinv.
    + injection Hstep as <-. simpl. destruct Hinv as [r ->]. simpl.
      exists (set r). repeat split. apply in_or_app. right. now left.
    + destruct Hinv as (r & Hr & Hset & Hin). rewrite Hr in Hstep. simpl in Hstep.
      unfold join in Hstep. destruct (alive r) eqn:Ha; [discriminate |].
      simpl in Hstep. injection Hstep as <-. simpl.
      exists r, (s_trace s). auto.
    + discriminate.
  - (* the relay *)
    unfold session_relay_step in Hstep.
    destruct (s_relay s) as [r |] eqn:Hr; [| discriminate]. simpl in Hstep.
    destruct (relay_step r) as [[r' evs] |] eqn:Hrs; [| discriminate].
    simpl in Hstep. injection Hstep as <-. simpl.
    destruct (relay_step_keeps _ _ _ Hrs) as (Hstop & _ & Halive).
    destruct (s_pc s).
    + discriminate.
    + eauto.
    + eauto.
    + destruct Hinv as (r0 & [= <-] & Hset & Hin).
      exists r'. repeat split; [congruence |]. apply in_or_app. now left.
    + destruct Hinv as (r0 & pre & [= <-] & _ & Hdead & _). congruence.
Qed.

Lemma session_inv_run (schedule : list thread) :
  forall s, session_inv dst s ->
  session_inv dst (redirect_stream src dst body schedule s).
Proof.
  induction schedule as [| t schedule IH]; intros s Hinv; simpl; [exact Hinv |].
  apply IH. destruct (redirect_stream_step src dst body t s) as [s' |] eqn:E.
  - eapply session_inv_step; eassumption.
  - exact Hinv.
Qed.

(** From the [join], one turn of the relay and one of the main thread
    release the handle. *)
Lemma release_from_join (s : session) :
  session_inv dst s -> s_pc s = SFinallyJoin ->
  s_pc (redirect_stream src dst body [Relay 0; Main] s) = SReleased.
Proof.
  unfold session_inv. intros Hinv Hpc. rewrite Hpc in Hinv.
  destruct Hinv as (r & Hr & Hset & _).
  simpl. unfold session_relay_step. rewrite Hr. simpl.
  destruct (alive r) eqn:Ha.
  - rewrite (relay_step_set r Hset Ha). simpl.
    unfold session_main_step. simpl. now rewrite Hpc.
  - rewrite (relay_step_dead r Ha). simpl.
    unfold session_main_step. rewrite Hpc, Hr. simpl.
    unfold join. now rewrite Ha.
Qed.

Lemma release_from_body (k : nat) :
  forall s, session_inv dst s -> s_pc s = SBody k ->
  s_pc (redirect_stream src dst body
          (repeat Main (S (S k)) ++ [Relay 0; Main]) s) = SReleased.
Proof.
  induction k as [| k IH]; intros s Hinv Hpc.
  - rewrite redirect_stream_app. apply release_from_join.
    + apply session_inv_run, Hinv.
    + simpl. unfold session_main_step. rewrite Hpc. simpl. reflexivity.
  - change (repeat Main (S (S (S k))) ++ [Relay 0; Main])
      with (Main :: (repeat Main (S (S k)) ++ [Relay 0; Main])).
    cbn [redirect_stream].
    assert (E : redirect_stream_step src dst body Main s
                = Some {| s_pc := SBody k; s_relay := s_relay s;
                          s_trace := s_trace s |}).
    { simpl. unfold session_main_step. now rewrite Hpc. }
    rewrite E. simpl default. apply IH; [| reflexivity].
    eapply session_inv_step; eassumption.
Qed.

(** Whatever has happened, the handle can still be released. *)
Lemma release_reachable (s : session) :
  session_inv dst s ->
  exists more, s_pc (redirect_stream src dst body more s) = SReleased.
Proof.
  intros Hinv. destruct (s_pc s) as [| k | | |] eqn:Hpc.
  - exists (Main :: (repeat Main (S (S body)) ++ [Relay 0; Main])).
    cbn [redirect_stream].
    assert (E : redirect_stream_step src dst body Main s
                = Some {| s_pc := SBody body; s_relay := Some (start src dst);
                          s_trace := s_trace s ++ [(Main, EStart dst)] |}).
    { simpl. unfold session_main_step. now rewrite Hpc. }
    rewrite E. simpl default. apply release_from_body; [| reflexivity].
    eapply session_inv_step; eassumption.
  - eexists. apply release_from_body; eassumption.
  - exists ([Main] ++ [Relay 0; Main]). rewrite redirect_stream_app.
    apply release_from_join.
    + apply session_inv_run, Hinv.
    + simpl. unfold session_main_step. now rewrite Hpc.
  - eexists. apply release_from_join; eassumption.
  - exists []. exact Hpc.
Qed.

End Session.

(** C3. In every session, under every schedule: the flag is tested before
    each read, and an iteration that finds it set leaves the loop with
    nothing read and nothing written, so the thread stops at the first
    such test without reaching the end of the stream; releasing the
    handle sets the flag and then joins, the join cannot pass while the
    thread is alive, once the handle is released the thread has stopped
    for good, and the release can always be reached. *)
Theorem redirect_stream_release (src : list read_outcome) (dst : sink)
    (body : nat) (schedule : list Opyplus.thread) :
  let s := Opyplus.redirect_stream src dst body schedule
             Opyplus.redirect_stream_init in
  (forall unread,
     Opyplus._redirect_stream_iteration dst true unread = (Break unread, []))
  /\ (forall stop,
      stop (first_set stop (length (until_eos src))) = true ->
      snd (Opyplus._redirect_stream src dst stop)
      = drop (first_set stop (length (until_eos src))) src)
  /\ (Opyplus.s_pc s = Opyplus.SFinallyJoin ->
      exists r, Opyplus.s_relay s = Some r
        /\ Opyplus.stop_event r = true
        /\ In (Opyplus.Main, ESet dst) (Opyplus.s_trace s)
        /\ (Opyplus.alive r = true ->
            Opyplus.session_main_step src dst body s = None))
  /\ (Opyplus.s_pc s = Opyplus.SReleased ->
      exists r pre, Opyplus.s_relay s = Some r
        /\ Opyplus.stop_event r = true
        /\ Opyplus.alive r = false
        /\ Opyplus.relay_step r = None
        /\ Opyplus.s_trace s = pre ++ [(Opyplus.Main, EJoin dst)]
        /\ In (Opyplus.Main, ESet dst) pre)
  /\ (exists more,
      Opyplus.s_pc (Opyplus.redirect_stream src dst body (schedule ++ more)
                      Opyplus.redirect_stream_init) = Opyplus.SReleased).
Proof.
  intros s.
  assert (Hinv : session_inv dst s)
    by (apply session_inv_run; reflexivity).
  split; [reflexivity |].
  split; [apply _redirect_stream_unread_flag |].
  split; [| split].
  - intros Hpc. unfold session_inv in Hinv. rewrite Hpc in Hinv.
    destruct Hinv as (r & Hr & Hset & Hin). exists r. repeat split; try assumption.
    intros Ha. unfold Opyplus.session_main_step. rewrite Hpc, Hr. simpl.
    unfold Opyplus.join. now rewrite Ha.
  - intros Hpc. unfold session_inv in Hinv. rewrite Hpc in Hinv.
    destruct Hinv as (r & pre & Hr & Hset & Ha & Htr & Hin).
    exists r, pre. repeat split; try assumption. apply relay_step_dead, Ha.
  - destruct (release_reachable src dst body s Hinv) as [more Hmore].
    exists more. now rewrite redirect_stream_app.
Qed.

Lemma redirect_stream_release_witness :
  let src := [Line "a"; Line "b"] in
  let schedule := [Opyplus.Main; Opyplus.Relay 0; Opyplus.Main; Opyplus.Main;
                   Opyplus.Main; Opyplus.Relay 0; Opyplus.Main] in
  let s := Opyplus.redirect_stream src sample_out 1 schedule
             Opyplus.redirect_stream_init in
  Opyplus.s_pc s = Opyplus.SReleased
  /\ exists r pre, Opyplus.s_relay s = Some r
       /\ Opyplus.stop_event r = true
       /\ Opyplus.alive r = false
       /\ Opyplus.relay_step r = None
       /\ Opyplus.s_trace s = pre ++ [(Opyplus.Main, EJoin sample_out)]
       /\ In (Opyplus.Main, ESet sample_out) pre.
Proof.
  intros src schedule s.
  assert (Hpc : Opyplus.s_pc s = Opyplus.SReleased) by reflexivity.
  split; [exact Hpc |].
  exact (proj1 (proj2 (proj2 (proj2
    (redirect_stream_release src sample_out 1 schedule)))) Hpc).
Defined.

(** ** [run_subprocess] and its three threads *)

Section SupervisorFacts.

Import Opyplus Supervisor.

Lemma thread_eqb_refl (t : thread) : thread_eqb t t = true.
Proof. destruct t; simpl; [reflexivity | apply Nat.eqb_refl]. Qed.

Lemma events_of_app (t : thread) (a b : list (thread * event)) :
  events_of t (a ++ b) = events_of t a ++ events_of t b.
Proof.
  induction a as [| [t' e] a IH]; simpl; [reflexivity |].
  destruct (thread_eqb t' t); simpl; now rewrite IH.
Qed.

Lemma events_of_tagged (t t' : thread) (evs : list event) :
  events_of t (tagged t' evs) = if thread_eqb t' t then evs else [].
Proof.
  induction evs as [| e evs IH]; simpl.
  - now destruct (thread_eqb t' t).
  - destruct (thread_eqb t' t); [now rewrite IH | exact IH].
Qed.

Variables (os : system) (c : call).

Lemma beats_S (n : nat) : beats os c (S n) = beats os c n ++ beat os c.
Proof.
  unfold beats. induction n as [| n IH]; simpl.
  - now rewrite app_nil_r.
  - simpl in IH. rewrite IH at 1. now rewrite app_assoc.
Qed.

Lemma run_subprocess_app (a b : list thread) (s : supervisor) :
  run_subprocess os c (a ++ b) s
  = run_subprocess os c b (run_subprocess os c a s).
Proof.
  revert s. induction a as [| t a IH]; intros s; simpl; [reflexivity | apply IH].
Qed.

(** A step of a relay leaves the main thread where it is. *)
Lemma relay_turn_main (p : process) (s s' : supervisor) :
  main_inv os c p s ->
  (out_step s = Some s' \/ err_step s = Some s') ->
  pc s' = pc s /\ sub_p s' = sub_p s /\ main_inv os c p s'.
Proof.
  intros Hinv Hstep.
  assert (H : pc s' = pc s /\ sub_p s' = sub_p s
              /\ events_of Main (trace s') = events_of Main (trace s)).
  { destruct Hstep as [Hstep | Hstep];
      [unfold out_step in Hstep | unfold err_step in Hstep].
    - destruct (out_t s) as [r |]; [| discriminate]. simpl in Hstep.
      destruct (relay_step r) as [[r' evs] |]; [| discriminate].
      simpl in Hstep. injection Hstep as <-. simpl.
      now rewrite events_of_app, events_of_tagged, app_nil_r.
    - destruct (err_t s) as [r |]; [| discriminate]. simpl in Hstep.
      destruct (relay_step r) as [[r' evs] |]; [| discriminate].
      simpl in Hstep. injection Hstep as <-. simpl.
      now rewrite events_of_app, events_of_tagged, app_nil_r. }
  destruct H as (Hpc & Hp & Hev). repeat split; try assumption.
  unfold main_inv in *. rewrite Hpc, Hp, Hev. exact Hinv.
Qed.

(** Nor does it undo what the main thread knows of the relays. *)
Lemma relay_turn_relays (s s' : supervisor) :
  relays_inv s ->
  (out_step s = Some s' \/ err_step s = Some s') ->
  relays_inv s'.
Proof.
  intros Hinv Hstep.
  assert (H : pc s' = pc s /\
    ((err_t s' = err_t s /\ exists r r', out_t s = Some r /\ out_t s' = Some r'
        /\ stop_event r' = stop_event r /\ alive r = true)
     \/ (out_t s' = out_t s /\ exists r r', err_t s = Some r /\ err_t s' = Some r'
        /\ stop_event r' = stop_event r /\ alive r = true))).
  { destruct Hstep as [Hstep | Hstep];
      [unfold out_step in Hstep | unfold err_step in Hstep].
    - destruct (out_t s) as [r |]; [| discriminate]. simpl in Hstep.
      destruct (relay_step r) as [[r' evs] |] eqn:Hr; [| discriminate].
      simpl in Hstep. injection Hstep as <-. simpl.
      destruct (relay_step_keeps _ _ _ Hr) as (? & _ & ?).
      split; [reflexivity |]. left. split; [reflexivity |]. eauto 6.
    - destruct (err_t s) as [r |]; [| discriminate]. simpl in Hstep.
      destruct (relay_step r) as [[r' evs] |] eqn:Hr; [| discriminate].
      simpl in Hstep. injection Hstep as <-. simpl.
      destruct (relay_step_keeps _ _ _ Hr) as (? & _ & ?).
      split; [reflexivity |]. right. split; [reflexivity |]. eauto 6. }
  destruct H as [Hpc H]. unfold relays_inv, stopped, told_to_stop in *.
  rewrite Hpc. clear Hstep Hpc.
  destruct H as [(He & r & r' & Ho & Ho' & Hs & Ha)
                | (Ho & r & r' & He & He' & Hs & Ha)];
    [rewrite He, Ho'; rewrite Ho in Hinv | rewrite Ho, He'; rewrite He in Hinv];
    destruct (pc s);
    repeat match goal with
           | H : _ /\ _ |- _ => destruct H
           | H : ex _ |- _ => destruct H
           | H : is_Some _ |- _ => destruct H
           | H : Some _ = Some _ |- _ => injection H as <-
           end;
    try discriminate; try congruence;
    repeat split; eauto;
    try (eexists; split; [reflexivity | congruence]).
Qed.

Lemma wait_beats (p p' : process) (expired : bool) :
  wait (beat_freq c) p = (expired, p') ->
  returncode p' = returncode p
  /\ beats_left c p = if expired then S (beats_left c p') else 0%nat.
Proof.
  unfold wait, beats_left.
  destruct (beat_freq c); destruct (expiries p) eqn:E;
    inversion 1; subst; simpl; auto.
Qed.

(** A step of the main thread. *)
Lemma main_turn (p : process) (s s' : supervisor) :
  Popen os (command c) (cwd c) (shell c) = Ok p ->
  main_inv os c p s -> relays_inv s ->
  main_step os c s = Some s' ->
  main_inv os c p s' /\ relays_inv s'.
Proof.
  intros HP (n & Hev & Hm) Hr Hstep.
  unfold main_step in Hstep. unfold relays_inv in *. unfold main_inv.
  destruct (pc s) eqn:Hpc.
  - (* Popen *)
    rewrite HP in Hstep. injection Hstep as <-. simpl.
    destruct Hm as [_ ->]. split; [| exact Hr].
    exists 0%nat. rewrite events_of_app, Hev. simpl. auto.
  - (* the relay of stdout is started *)
    destruct Hm as [Hp ->]. rewrite Hp in Hstep. simpl in Hstep.
    injection Hstep as <-. simpl. split; [| now destruct Hr as [_ ->]].
    exists 0%nat. rewrite events_of_app, Hev. simpl. auto.
  - (* the relay of stderr is started *)
    destruct Hm as [Hp ->]. rewrite Hp in Hstep. simpl in Hstep.
    injection Hstep as <-. simpl. split; [| now destruct Hr as [? _]].
    exists 0%nat. rewrite events_of_app, Hev. simpl.
    split; [reflexivity |]. exists p. auto.
  - (* wait *)
    destruct Hm as (p' & Hp & Hrc & Hn). rewrite Hp in Hstep. simpl in Hstep.
    destruct (wait (beat_freq c) p') as [expired p''] eqn:Hw.
    destruct (wait_beats _ _ _ Hw) as [Hrc' Hleft].
    injection Hstep as <-. simpl.
    split; [| destruct expired; exact Hr].
    exists n. rewrite events_of_app, Hev.
    destruct expired; simpl; rewrite <- ?app_assoc;
      (split; [reflexivity |]); exists p'';
      (split; [reflexivity |]); split; try congruence; lia.
  - (* the heartbeat is written *)
    injection Hstep as <-. simpl. split; [| exact Hr].
    exists n. rewrite events_of_app, Hev. simpl.
    rewrite <- ?app_assoc. split; [reflexivity | exact Hm].
  - (* sys.stdout is flushed *)
    injection Hstep as <-. simpl. split; [| exact Hr].
    exists (S n). rewrite events_of_app, Hev, events_of_tagged. simpl.
    rewrite beats_S, <- ?app_assoc. split; [reflexivity |].
    destruct Hm as (p' & ? & ? & ?). exists p'. auto.
  - (* the relay of stderr is told to stop *)
    injection Hstep as <-. simpl. split.
    + exists n. rewrite events_of_app, Hev. simpl.
      rewrite <- ?app_assoc. split; [reflexivity | exact Hm].
    + destruct Hr as [Ho [r He]]. split; [exact Ho |].
      rewrite He. exists (set r). auto.
  - (* the relay of stderr is joined *)
    destruct Hr as [Ho (r & He & Hset)]. rewrite He in Hstep. simpl in Hstep.
    unfold join in Hstep. destruct (alive r) eqn:Ha; [discriminate |].
    simpl in Hstep. injection Hstep as <-. simpl. split.
    + exists n. rewrite events_of_app, Hev. simpl.
      rewrite <- ?app_assoc. split; [reflexivity | exact Hm].
    + split; [exact Ho |]. exists r. auto.
  - (* the relay of stdout is told to stop *)
    injection Hstep as <-. simpl. split.
    + exists n. rewrite events_of_app, Hev. simpl.
      rewrite <- ?app_assoc. split; [reflexivity | exact Hm].
    + destruct Hr as [[r Ho] He]. split; [| exact He].
      rewrite Ho. exists (set r). auto.
  - (* the relay of stdout is joined *)
    destruct Hr as [(r & Ho & Hset) He]. rewrite Ho in Hstep. simpl in Hstep.
    unfold join in Hstep. destruct (alive r) eqn:Ha; [discriminate |].
    simpl in Hstep. injection Hstep as <-. simpl. split.
    + exists n. rewrite events_of_app, Hev. simpl.
      rewrite <- ?app_assoc. split; [reflexivity | exact Hm].
    + split; [| exact He]. exists r. auto.
  - (* Popen is left *)
    destruct Hm as (p' & Hp & Hrc & Hn). rewrite Hp in Hstep. simpl in Hstep.
    injection Hstep as <-. simpl. split; [| exact Hr].
    exists n. rewrite events_of_app, Hev. simpl.
    unfold main_trace. rewrite <- ?app_assoc. auto.
  - discriminate.
  - discriminate.
Qed.

Lemma supervisor_inv_step (p : process) (t : thread) (s s' : supervisor) :
  Popen os (command c) (cwd c) (shell c) = Ok p ->
  main_inv os c p s -> relays_inv s ->
  run_subprocess_step os c t s = Some s' ->
  main_inv os c p s' /\ relays_inv s'.
Proof.
  intros HP Hm Hr Hstep. destruct t as [| [| [| n]]]; simpl in Hstep.
  - eapply main_turn; eassumption.
  - split; [eapply relay_turn_main | eapply relay_turn_relays]; eauto.
  - split; [eapply relay_turn_main | eapply relay_turn_relays]; eauto.
  - discriminate.
Qed.

Lemma supervisor_inv_run (p : process) (schedule : list thread) :
  Popen os (command c) (cwd c) (shell c) = Ok p ->
  forall s, main_inv os c p s -> relays_inv s ->
  main_inv os c p (run_subprocess os c schedule s)
  /\ relays_inv (run_subprocess os c schedule s).
Proof.
  intros HP. induction schedule as [| t schedule IH]; intros s Hm Hr; simpl;
    [auto |].
  destruct (run_subprocess_step os c t s) as [s' |] eqn:E; simpl.
  - destruct (supervisor_inv_step p t s s' HP Hm Hr E). now apply IH.
  - now apply IH.
Qed.

Lemma supervisor_inv_init (p : process) :
  main_inv os c p run_subprocess_init /\ relays_inv run_subprocess_init.
Proof.
  split.
  - exists 0%nat. simpl. auto.
  - unfold relays_inv. simpl. auto.
Qed.

Section Progress.

Variable p : process.
Hypothesis HP : Popen os (command c) (cwd c) (shell c) = Ok p.

Lemma can_return_after (t : thread) (s s' : supervisor) :
  run_subprocess_step os c t s = Some s' ->
  main_inv os c p s -> relays_inv s ->
  (main_inv os c p s' -> relays_inv s' -> can_return os c p s') ->
  can_return os c p s.
Proof.
  intros E Hm Hr Hnext.
  destruct (supervisor_inv_step p t s s' HP Hm Hr E) as [Hm' Hr'].
  destruct (Hnext Hm' Hr') as [more Hmore].
  exists (t :: more). simpl. now rewrite E.
Qed.

Lemma from_close (s : supervisor) :
  main_inv os c p s -> relays_inv s -> pc s = MClose -> can_return os c p s.
Proof.
  intros Hm Hr Hpc. pose proof Hm as (n & _ & H). rewrite Hpc in H.
  destruct H as (p' & Hp & Hrc & _).
  exists [Main]. simpl. unfold main_step. rewrite Hpc, Hp. simpl.
  now rewrite Hrc.
Qed.

Lemma from_out_join_stopped (s : supervisor) :
  main_inv os c p s -> relays_inv s -> pc s = MExitOutJoin ->
  stopped (out_t s) -> can_return os c p s.
Proof.
  intros Hm Hr Hpc (r & Ho & Ha).
  eapply (can_return_after Main); [| assumption | assumption |].
  - simpl. unfold main_step. rewrite Hpc, Ho. simpl. unfold join.
    rewrite Ha. reflexivity.
  - intros. now apply from_close.
Qed.

Lemma from_out_join (s : supervisor) :
  main_inv os c p s -> relays_inv s -> pc s = MExitOutJoin ->
  can_return os c p s.
Proof.
  intros Hm Hr Hpc. pose proof Hr as Hr0. unfold relays_inv in Hr0.
  rewrite Hpc in Hr0. destruct Hr0 as [(r & Ho & Hset) _].
  destruct (alive r) eqn:Ha.
  - eapply (can_return_after (Relay 0)); [| assumption | assumption |].
    + simpl. unfold out_step. rewrite Ho. simpl.
      rewrite (relay_step_set r Hset Ha). reflexivity.
    + intros. apply from_out_join_stopped; try assumption.
      eexists. split; reflexivity.
  - apply from_out_join_stopped; try assumption. now exists r.
Qed.

Lemma from_out_set (s : supervisor) :
  main_inv os c p s -> relays_inv s -> pc s = MExitOutSet ->
  can_return os c p s.
Proof.
  intros Hm Hr Hpc.
  eapply (can_return_after Main); [| assumption | assumption |].
  - simpl. unfold main_step. rewrite Hpc. reflexivity.
  - intros. now apply from_out_join.
Qed.

Lemma from_err_join_stopped (s : supervisor) :
  main_inv os c p s -> relays_inv s -> pc s = MExitErrJoin ->
  stopped (err_t s) -> can_return os c p s.
Proof.
  intros Hm Hr Hpc (r & He & Ha).
  eapply (can_return_after Main); [| assumption | assumption |].
  - simpl. unfold main_step. rewrite Hpc, He. simpl. unfold join.
    rewrite Ha. reflexivity.
  - intros. now apply from_out_set.
Qed.

Lemma from_err_join (s : supervisor) :
  main_inv os c p s -> relays_inv s -> pc s = MExitErrJoin ->
  can_return os c p s.
Proof.
  intros Hm Hr Hpc. pose proof Hr as Hr0. unfold relays_inv in Hr0.
  rewrite Hpc in Hr0. destruct Hr0 as [_ (r & He & Hset)].
  destruct (alive r) eqn:Ha.
  - eapply (can_return_after (Relay 1)); [| assumption | assumption |].
    + simpl. unfold err_step. rewrite He. simpl.
      rewrite (relay_step_set r Hset Ha). reflexivity.
    + intros. apply from_err_join_stopped; try assumption.
      eexists. split; reflexivity.
  - apply from_err_join_stopped; try assumption. now exists r.
Qed.

Lemma from_err_set (s : supervisor) :
  main_inv os c p s -> relays_inv s -> pc s = MExitErrSet ->
  can_return os c p s.
Proof.
  intros Hm Hr Hpc.
  eapply (can_return_after Main); [| assumption | assumption |].
  - simpl. unfold main_step. rewrite Hpc. reflexivity.
  - intros. now apply from_err_join.
Qed.

(** The loop of waits and heartbeats comes to its end. *)
Lemma from_wait_loop (m : nat) :
  forall s, main_inv os c p s -> relays_inv s ->
  pc s = MWait \/ pc s = MBeatWrite \/ pc s = MBeatFlush ->
  (steps_to_exit c s <= m)%nat ->
  can_return os c p s.
Proof.
  induction m as [| m IH]; intros s Hm Hr Hpc Hsteps.
  - exfalso. unfold steps_to_exit in Hsteps.
    destruct Hpc as [E | [E | E]]; rewrite E in Hsteps; lia.
  - pose proof Hm as (n & _ & H).
    destruct Hpc as [Hpc | [Hpc | Hpc]]; rewrite Hpc in H;
      destruct H as (p' & Hp & _ & _).
    + (* wait *)
      destruct (wait (beat_freq c) p') as [expired p''] eqn:Hw.
      destruct (wait_beats _ _ _ Hw) as [_ Hleft].
      eapply (can_return_after Main); [| assumption | assumption |].
      * simpl. unfold main_step. rewrite Hpc, Hp. simpl. rewrite Hw.
        reflexivity.
      * intros Hm' Hr'. destruct expired.
        -- apply IH; [assumption | assumption | simpl; auto |].
           unfold steps_to_exit in *. rewrite Hpc, Hp in Hsteps. simpl. lia.
        -- now apply from_err_set.
    + (* the heartbeat is written *)
      eapply (can_return_after Main); [| assumption | assumption |].
      * simpl. unfold main_step. rewrite Hpc. reflexivity.
      * intros Hm' Hr'. apply IH; [assumption | assumption | simpl; auto |].
        unfold steps_to_exit in *. rewrite Hpc in Hsteps. simpl. lia.
    + (* sys.stdout is flushed *)
      eapply (can_return_after Main); [| assumption | assumption |].
      * simpl. unfold main_step. rewrite Hpc. reflexivity.
      * intros Hm' Hr'. apply IH; [assumption | assumption | simpl; auto |].
        unfold steps_to_exit in *. rewrite Hpc in Hsteps. simpl. lia.
Qed.

(** Wherever the call stands, it can still return. *)
Lemma return_reachable (s : supervisor) :
  main_inv os c p s -> relays_inv s -> can_return os c p s.
Proof.
  intros Hm Hr.
  assert (Hloop : forall s0, main_inv os c p s0 -> relays_inv s0 ->
            pc s0 = MWait \/ pc s0 = MBeatWrite \/ pc s0 = MBeatFlush ->
            can_return os c p s0)
    by (intros; eapply from_wait_loop; eauto).
  assert (Herr : forall s0, main_inv os c p s0 -> relays_inv s0 ->
            pc s0 = MEnterErr -> can_return os c p s0).
  { intros s0 Hm0 Hr0 Hpc0. pose proof Hm0 as (n & _ & H).
    rewrite Hpc0 in H. destruct H as [Hp _].
    eapply (can_return_after Main); [| assumption | assumption |].
    - simpl. unfold main_step. rewrite Hpc0, Hp. reflexivity.
    - intros. apply Hloop; simpl; auto. }
  assert (Hout : forall s0, main_inv os c p s0 -> relays_inv s0 ->
            pc s0 = MEnterOut -> can_return os c p s0).
  { intros s0 Hm0 Hr0 Hpc0. pose proof Hm0 as (n & _ & H).
    rewrite Hpc0 in H. destruct H as [Hp _].
    eapply (can_return_after Main); [| assumption | assumption |].
    - simpl. unfold main_step. rewrite Hpc0, Hp. reflexivity.
    - intros. apply Herr; simpl; auto. }
  destruct (pc s) eqn:Hpc.
  - eapply (can_return_after Main); [| assumption | assumption |].
    + simpl. unfold main_step. rewrite Hpc, HP. reflexivity.
    + intros. apply Hout; simpl; auto.
  - now apply Hout.
  - now apply Herr.
  - apply Hloop; auto.
  - apply Hloop; auto.
  - apply Hloop; auto.
  - now apply from_err_set.
  - now apply from_err_join.
  - now apply from_out_set.
  - now apply from_out_join.
  - now apply from_close.
  - destruct Hm as (n & _ & H). rewrite Hpc in H. destruct H as [-> _].
    exists []. exact Hpc.
  - destruct Hm as (n & _ & H). rewrite Hpc in H. destruct H.
Qed.

End Progress.

Lemma beats_add (n k : nat) : beats os c (n + k) = beats os c n ++ beats os c k.
Proof.
  unfold beats. induction n as [| n IH]; simpl; [reflexivity |].
  now rewrite IH, app_assoc.
Qed.

(** At every moment the main thread has done a beginning of what a call
    with as many heartbeats as the process causes does. *)
Lemma main_inv_prefix (p : process) (s : supervisor) :
  main_inv os c p s ->
  exists rest,
    events_of Main (trace s) ++ rest = main_trace os c (beats_left c p).
Proof.
  intros (n & Hev & Hm). rewrite Hev. unfold main_trace.
  assert (Hcut : forall (i : nat) (a b x rest : list event),
            (a ++ b ++ take i x) ++ drop i x ++ rest = a ++ b ++ x ++ rest).
  { intros i a b x rest.
    now rewrite <- !app_assoc, (app_assoc (take i x)), take_drop. }
  assert (HS : forall k, beats os c (n + S k)
                         = beats os c n ++ beat os c ++ beats os c k)
    by (intros k; now rewrite beats_add).
  destruct (pc s); cbn [main_trace_at].
  - eexists. reflexivity.
  - destruct Hm as [_ ->].
    exists (drop 1 (opening os c) ++ beats os c (beats_left c p) ++ closing os c).
    now rewrite app_assoc, take_drop.
  - destruct Hm as [_ ->].
    exists (drop 2 (opening os c) ++ beats os c (beats_left c p) ++ closing os c).
    now rewrite app_assoc, take_drop.
  - destruct Hm as (p' & _ & _ & <-).
    exists (beats os c (beats_left c p') ++ closing os c).
    now rewrite beats_add, <- !app_assoc.
  - destruct Hm as (p' & _ & _ & <-).
    exists (drop 1 (beat os c) ++ beats os c (beats_left c p') ++ closing os c).
    replace (S n + beats_left c p')%nat with (n + S (beats_left c p'))%nat by lia.
    now rewrite Hcut, HS, <- !app_assoc.
  - destruct Hm as (p' & _ & _ & <-).
    exists (drop 2 (beat os c) ++ beats os c (beats_left c p') ++ closing os c).
    replace (S n + beats_left c p')%nat with (n + S (beats_left c p'))%nat by lia.
    now rewrite Hcut, HS, <- !app_assoc.
  - destruct Hm as (p' & _ & _ & ->). exists (drop 1 (closing os c)).
    now rewrite <- !app_assoc, take_drop.
  - destruct Hm as (p' & _ & _ & ->). exists (drop 2 (closing os c)).
    now rewrite <- !app_assoc, take_drop.
  - destruct Hm as (p' & _ & _ & ->). exists (drop 3 (closing os c)).
    now rewrite <- !app_assoc, take_drop.
  - destruct Hm as (p' & _ & _ & ->). exists (drop 4 (closing os c)).
    now rewrite <- !app_assoc, take_drop.
  - destruct Hm as (p' & _ & _ & ->). exists (drop 5 (closing os c)).
    now rewrite <- !app_assoc, take_drop.
  - destruct Hm as [_ ->]. exists []. now rewrite app_nil_r.
  - destruct Hm.
Qed.

(** *** When [Popen] raises *)

Section Failure.

Variable e : exn.
Hypothesis HP : Popen os (command c) (cwd c) (shell c) = Raise e.

Lemma failed_inv_step (t : thread) (s s' : supervisor) :
  failed_inv e s -> run_subprocess_step os c t s = Some s' ->
  failed_inv e s' /\ t = Main /\ pc s' = MRaised e.
Proof.
  intros (Htr & Hp & Ho & He & Hpc) Hstep.
  destruct t as [| [| [| n]]]; simpl in Hstep.
  - unfold main_step in Hstep. destruct Hpc as [Hpc | Hpc]; rewrite Hpc in Hstep.
    + rewrite HP in Hstep. injection Hstep as <-. unfold failed_inv. simpl. auto 10.
    + discriminate.
  - unfold out_step in Hstep. rewrite Ho in Hstep. discriminate.
  - unfold err_step in Hstep. rewrite He in Hstep. discriminate.
  - discriminate.
Qed.

Lemma failed_inv_run (schedule : list thread) :
  forall s, failed_inv e s ->
  failed_inv e (run_subprocess os c schedule s)
  /\ (pc s = MRaised e \/ In Main schedule ->
      pc (run_subprocess os c schedule s) = MRaised e).
Proof.
  induction schedule as [| t schedule IH]; intros s Hinv; simpl.
  - split; [exact Hinv |]. intros [H | []]. exact H.
  - destruct (run_subprocess_step os c t s) as [s' |] eqn:E; simpl.
    + destruct (failed_inv_step t s s' Hinv E) as (Hinv' & _ & Hpc').
      destruct (IH s' Hinv') as [H1 H2]. split; [exact H1 |]. auto.
    + destruct (IH s Hinv) as [H1 H2]. split; [exact H1 |].
      intros [H | [-> | H]]; [auto | | auto].
      (* the main thread had its turn and could not move *)
      destruct Hinv as (_ & _ & _ & _ & [Hpc | Hpc]); [| auto].
      simpl in E. unfold main_step in E. rewrite Hpc, HP in E. discriminate.
Qed.

End Failure.

End SupervisorFacts.

(** C1. Once the command is started, under every schedule of the three
    threads: the main thread waits with [timeout=beat_freq]; each wait
    that expires is followed by the write of [message] to the output sink
    and by a flush of [sys.stdout] when it has one, and then by the next
    wait; the wait that sees the process end is followed by the release
    of the two relays and the return of the exit code, whatever it is,
    as a value. Without [beat_freq] no wait expires and the main thread
    writes nothing. The call never raises and can always return. *)
Theorem run_subprocess_heartbeats (os : Opyplus.system) (c : Opyplus.call)
    (p : Opyplus.process) (schedule : list Opyplus.thread) :
  Opyplus.Popen os (Opyplus.command c) (Opyplus.cwd c) (Opyplus.shell c) = Ok p ->
  let s := Opyplus.run_subprocess os c schedule Opyplus.run_subprocess_init in
  let n := Supervisor.beats_left c p in
  (exists rest,
     Supervisor.events_of Opyplus.Main (Opyplus.trace s) ++ rest
     = Supervisor.main_trace os c n)
  /\ (forall code, Opyplus.pc s = Opyplus.MReturn code ->
      code = Opyplus.returncode p
      /\ Supervisor.events_of Opyplus.Main (Opyplus.trace s)
         = Supervisor.main_trace os c n
      /\ Supervisor.stopped (Opyplus.out_t s)
      /\ Supervisor.stopped (Opyplus.err_t s))
  /\ (forall e, Opyplus.pc s <> Opyplus.MRaised e)
  /\ (Opyplus.beat_freq c = None ->
      n = 0%nat
      /\ forall dst text,
           ~ In (EWrite dst text)
               (Supervisor.events_of Opyplus.Main (Opyplus.trace s)))
  /\ (forall period, Opyplus.beat_freq c = Some period -> n = Opyplus.expiries p)
  /\ (exists more,
      Opyplus.outcome
        (Opyplus.run_subprocess os c (schedule ++ more) Opyplus.run_subprocess_init)
      = Some (Ok (Opyplus.returncode p)))
  /\ Opyplus.message (Opyplus.defaults (Opyplus.command c))
     = "subprocess is still running" +:+ String (ascii_of_nat 10) EmptyString.
Proof.
  intros HP s n.
  destruct (supervisor_inv_init os c p) as [Hm0 Hr0].
  destruct (supervisor_inv_run os c p schedule HP _ Hm0 Hr0) as [Hm Hr].
  fold s in Hm, Hr.
  pose proof (main_inv_prefix os c p s Hm) as Hprefix.
  split; [exact Hprefix |].
  split; [| split; [| split; [| split; [| split]]]].
  - intros code Hpc. destruct Hm as (k & Hev & H). rewrite Hpc in Hev, H.
    destruct H as [-> ->]. unfold Supervisor.relays_inv in Hr.
    rewrite Hpc in Hr. destruct Hr. auto.
  - intros e Hpc. destruct Hm as (k & _ & H). rewrite Hpc in H. exact H.
  - intros Hnone.
    assert (Hn : n = 0%nat) by (unfold n, Supervisor.beats_left; now rewrite Hnone).
    split; [exact Hn |]. intros dst text Hin.
    destruct Hprefix as [rest Hrest]. fold n in Hrest. rewrite Hn in Hrest.
    assert (Hin' : In (EWrite dst text) (Supervisor.main_trace os c 0%nat)).
    { rewrite <- Hrest. apply in_or_app. now left. }
    simpl in Hin'. intuition discriminate.
  - intros period Hsome. unfold n, Supervisor.beats_left. now rewrite Hsome.
  - destruct (return_reachable os c p HP s Hm Hr) as [more Hmore].
    exists more. rewrite run_subprocess_app. fold s.
    unfold Opyplus.outcome. now rewrite Hmore.
  - reflexivity.
Qed.

Lemma run_subprocess_heartbeats_witness :
  let os := sample_system in
  let c := sample_call "energyplus" in
  let schedule := repeat Opyplus.Main 11
                    ++ [Opyplus.Relay 1; Opyplus.Main; Opyplus.Main;
                        Opyplus.Relay 0; Opyplus.Main; Opyplus.Main] in
  let s := Opyplus.run_subprocess os c schedule Opyplus.run_subprocess_init in
  Opyplus.Popen os (Opyplus.command c) (Opyplus.cwd c) (Opyplus.shell c)
  = Ok sample_process
  /\ Opyplus.pc s = Opyplus.MReturn 3
  /\ 3 = Opyplus.returncode sample_process
  /\ Supervisor.events_of Opyplus.Main (Opyplus.trace s)
     = Supervisor.main_trace os c 2
  /\ Supervisor.stopped (Opyplus.out_t s)
  /\ Supervisor.stopped (Opyplus.err_t s).
Proof.
  intros os c schedule s.
  assert (HP : Opyplus.Popen os (Opyplus.command c) (Opyplus.cwd c)
                 (Opyplus.shell c) = Ok sample_process) by reflexivity.
  assert (Hpc : Opyplus.pc s = Opyplus.MReturn 3) by reflexivity.
  split; [exact HP |]. split; [exact Hpc |].
  exact (proj1 (proj2 (run_subprocess_heartbeats os c sample_process schedule HP))
           3 Hpc).
Defined.

(** C4. When the command cannot be started, under every schedule: no
    event ever happens, so neither sink is written to and no heartbeat
    is written; no relay and no process handle ever exist; the only step
    that can be taken is the one of the main thread that raises the
    error of [Popen], and the call has raised it as soon as the main
    thread has had a turn. *)
Theorem run_subprocess_start_failure (os : Opyplus.system) (c : Opyplus.call)
    (e : exn) (schedule : list Opyplus.thread) :
  Opyplus.Popen os (Opyplus.command c) (Opyplus.cwd c) (Opyplus.shell c) = Raise e ->
  let s := Opyplus.run_subprocess os c schedule Opyplus.run_subprocess_init in
  Opyplus.trace s = []
  /\ Opyplus.sub_p s = None
  /\ Opyplus.out_t s = None
  /\ Opyplus.err_t s = None
  /\ (Opyplus.outcome s = None \/ Opyplus.outcome s = Some (Raise e))
  /\ (In Opyplus.Main schedule -> Opyplus.outcome s = Some (Raise e))
  /\ (forall t s', Opyplus.run_subprocess_step os c t s = Some s' ->
      t = Opyplus.Main /\ Opyplus.pc s' = Opyplus.MRaised e
      /\ Opyplus.trace s' = []).
Proof.
  intros HP s.
  assert (H0 : Supervisor.failed_inv e Opyplus.run_subprocess_init).
  { unfold Supervisor.failed_inv. simpl. auto 10. }
  destruct (failed_inv_run os c e HP schedule _ H0) as [Hinv Hraised].
  fold s in Hinv, Hraised.
  pose proof Hinv as (Htr & Hp & Ho & He & Hpc).
  repeat (split; [assumption |]).
  split; [| split].
  - unfold Opyplus.outcome. destruct Hpc as [-> | ->]; auto.
  - intros Hin. unfold Opyplus.outcome. rewrite Hraised; auto.
  - intros t s' Hstep.
    destruct (failed_inv_step os c e HP t s s' Hinv Hstep) as (Hinv' & Ht & Hpc').
    destruct Hinv' as (Htr' & _). auto.
Qed.

Lemma run_subprocess_start_failure_witness :
  let os := sample_system in
  let c := sample_call "no-such-program" in
  let e := FileNotFoundError "No such file or directory: no-such-program" in
  let schedule := [Opyplus.Relay 0; Opyplus.Main; Opyplus.Relay 1; Opyplus.Main] in
  let s := Opyplus.run_subprocess os c schedule Opyplus.run_subprocess_init in
  Opyplus.Popen os (Opyplus.command c) (Opyplus.cwd c) (Opyplus.shell c) = Raise e
  /\ In Opyplus.Main schedule
  /\ Opyplus.outcome s = Some (Raise e)
  /\ Opyplus.trace s = [].
Proof.
  intros os c e schedule s.
  assert (HP : Opyplus.Popen os (Opyplus.command c) (Opyplus.cwd c)
                 (Opyplus.shell c) = Raise e) by reflexivity.
  assert (Hin : In Opyplus.Main schedule) by (simpl; auto).
  pose proof (run_subprocess_start_failure os c e schedule HP) as H.
  split; [exact HP |]. split; [exact Hin |].
  split; [exact (proj1 (proj2 (proj2 (proj2 (proj2 (proj2 H))))) Hin) |].
  exact (proj1 H).
Defined.

(** * More of [util.py] *)

(** ** Comprehensions and version strings *)

Section Versions.

Import PyStr.





Lemma comprehension_total {A B : Type} (f : A -> result B) (xs : list A) :
  (exists ys, comprehension f xs = Ok ys) \/ (exists e, comprehension f xs = Raise e).
Proof. destruct (comprehension f xs); eauto. Qed.

Lemma split_nonempty (sep : ascii) (s : string) : split sep s <> [].
Proof.
  induction s as [| c s IH]; simpl; [discriminate |].
  destruct (Ascii.eqb c sep); [discriminate |].
  destruct (split sep s); [contradiction | discriminate].
Qed.

(** Cutting at a separator that is known to be there. *)
Lemma split_app (sep : ascii) (a b : string) :
  split sep (a +:+ String sep b) = split sep a ++ split sep b.
Proof.
  induction a as [| c a IH].
  - change (EmptyString +:+ String sep b) with (String sep b).
    cbn [split]. now rewrite Ascii.eqb_refl.
  - change (String c a +:+ String sep b) with (String c (a +:+ String sep b)).
    cbn [split]. rewrite IH. destruct (Ascii.eqb c sep); [reflexivity |].
    pose proof (split_nonempty sep a) as Hne.
    destruct (split sep a) as [| w ws]; [contradiction | reflexivity].
Qed.

End Versions.


(** X2. What [version_str_to_version] returns has exactly three
    components. *)
Theorem version_str_to_version_three (version_str : string) (v : list Z) :
  Opyplus.version_str_to_version version_str = Ok v -> length v = 3%nat.
Proof.
  unfold Opyplus.version_str_to_version.
  destruct (comprehension PyStr.int (PyStr.split "." version_str)) as [zs | e];
    [| discriminate].
  unfold mbind, result_bind. cbv beta iota zeta.
  destruct (length (zs ++ [0%Z]) <? 3)%nat eqn:Hlt; [discriminate |].
  intros H. injection H as <-. apply Nat.ltb_ge in Hlt.
  rewrite length_take. lia.
Qed.

Lemma version_str_to_version_three_witness :
  Opyplus.version_str_to_version "22.1" = Ok [22; 1; 0]
  /\ length [22; 1; 0] = 3%nat.
Proof.
  assert (H : Opyplus.version_str_to_version "22.1" = Ok [22; 1; 0]) by reflexivity.
  split; [exact H |]. exact (version_str_to_version_three _ _ H).
Defined.

(** X3. A string of two components reads as the same string with [".0"]
    after it: both calls return the same tuple or raise the same
    error. *)
Theorem version_str_to_version_padding (version_str : string) :
  length (PyStr.split "." version_str) = 2%nat ->
  Opyplus.version_str_to_version (version_str +:+ ".0")
  = Opyplus.version_str_to_version version_str.
Proof.
  intros Hlen. unfold Opyplus.version_str_to_version.
  change (version_str +:+ ".0") with (version_str +:+ String "." "0").
  rewrite split_app.
  destruct (PyStr.split "." version_str) as [| p1 [| p2 [| p3 ps]]];
    try discriminate.
  cbn [app comprehension].
  destruct (PyStr.int p1) as [a | e1]; [| reflexivity].
  destruct (PyStr.int p2) as [b | e2]; reflexivity.
Qed.

Lemma version_str_to_version_padding_witness :
  length (PyStr.split "." "9.4") = 2%nat
  /\ Opyplus.version_str_to_version ("9.4" +:+ ".0")
     = Opyplus.version_str_to_version "9.4".
Proof.
  assert (H : length (PyStr.split "." "9.4") = 2%nat) by reflexivity.
  split; [exact H |]. exact (version_str_to_version_padding "9.4" H).
Defined.

(** ** [sort_df] *)

Section SortDf.

Import PyStr.



End SortDf.




(** ** [str.strip] and the two writers *)

Section Strip.

Import PyStr.

Lemma lstrip_starts (s : string) : starts_space (lstrip s) = false.
Proof.
  induction s as [| c s IH]; simpl; [reflexivity |].
  destruct (isspace c) eqn:E; [exact IH | simpl; exact E].
Qed.

Lemma rstrip_ends (s : string) : ends_space (rstrip s) = false.
Proof.
  induction s as [| c s IH]; simpl; [reflexivity |].
  destruct (rstrip s) as [| c' r].
  - destruct (isspace c) eqn:E; simpl; [reflexivity | exact E].
  - exact IH.
Qed.

Lemma rstrip_starts (s : string) :
  starts_space s = false -> starts_space (rstrip s) = false.
Proof.
  destruct s as [| c s]; simpl; [reflexivity |].
  intros E. destruct (rstrip s); [rewrite E |]; simpl; exact E.
Qed.

Lemma lstrip_fixed (s : string) : starts_space s = false -> lstrip s = s.
Proof. destruct s as [| c s]; simpl; [reflexivity |]. now intros ->. Qed.

Lemma rstrip_fixed (s : string) : ends_space s = false -> rstrip s = s.
Proof.
  induction s as [| c s IH]; [reflexivity |].
  destruct s as [| c' s'].
  - simpl. now intros ->.
  - intros E. change (ends_space (String c (String c' s')))
      with (ends_space (String c' s')) in E.
    cbn [rstrip] in *. rewrite (IH E). reflexivity.
Qed.

Lemma strip_idempotent (s : string) : strip (strip s) = strip s.
Proof.
  unfold strip.
  rewrite (lstrip_fixed (rstrip (lstrip s))).
  - apply rstrip_fixed, rstrip_ends.
  - apply rstrip_starts, lstrip_starts.
Qed.

Lemma all_space_lstrip (s : string) : all_space (lstrip s) = all_space s.
Proof.
  induction s as [| c s IH]; simpl; [reflexivity |].
  destruct (isspace c) eqn:E; [exact IH | simpl; now rewrite E].
Qed.

Lemma rstrip_empty (s : string) : rstrip s = EmptyString <-> all_space s = true.
Proof.
  induction s as [| c s IH]; simpl; [tauto |].
  destruct (rstrip s) as [| c' r].
  - destruct (isspace c); simpl.
    + rewrite <- IH. tauto.
    + split; discriminate.
  - split; [discriminate |]. intros H. apply andb_true_iff in H as [_ H].
    apply IH in H. discriminate.
Qed.

Lemma strip_empty (s : string) : strip s = EmptyString <-> all_space s = true.
Proof. unfold strip. now rewrite rstrip_empty, all_space_lstrip. Qed.

End Strip.

(** X6. [LoggerStreamWriter.write] logs nothing when the message is
    white space only, the empty message included. For every other
    message it logs once, at the level of the writer, the message
    without the white space around it: what is logged is not empty and
    neither begins nor ends with white space. *)
Theorem LoggerStreamWriter_write_stripped
    (self : Opyplus.LoggerStreamWriter.t) (message : string) :
  (PyStr.all_space message = true ->
   Opyplus.LoggerStreamWriter.write self message = [])
  /\ (PyStr.all_space message = false ->
      Opyplus.LoggerStreamWriter.write self message
      = [(Opyplus.LoggerStreamWriter._logger self,
          Opyplus.LoggerStreamWriter._level self,
          PyStr.strip message)]
      /\ PyStr.strip message <> EmptyString
      /\ PyStr.starts_space (PyStr.strip message) = false
      /\ PyStr.ends_space (PyStr.strip message) = false).
Proof.
  unfold Opyplus.LoggerStreamWriter.write. cbv zeta. split.
  - intros H. apply strip_empty in H. now rewrite H.
  - intros H.
    assert (Hne : PyStr.strip message <> EmptyString).
    { intros E. apply strip_empty in E. congruence. }
    split; [| split; [exact Hne | split]].
    + destruct (String.eqb_spec (PyStr.strip message) EmptyString);
        [contradiction | reflexivity].
    + apply rstrip_starts, lstrip_starts.
    + apply rstrip_ends.
Qed.

Lemma LoggerStreamWriter_write_stripped_witness :
  let self := {| Opyplus.LoggerStreamWriter._logger := "opyplus";
                 Opyplus.LoggerStreamWriter._level := 20 |} in
  PyStr.all_space "  Run Time=00hr 00min  1.05sec " = false
  /\ Opyplus.LoggerStreamWriter.write self "  Run Time=00hr 00min  1.05sec "
     = [("opyplus", 20, "Run Time=00hr 00min  1.05sec")].
Proof.
  intros self.
  assert (H : PyStr.all_space "  Run Time=00hr 00min  1.05sec " = false)
    by reflexivity.
  split; [exact H |].
  exact (proj1 (proj2 (LoggerStreamWriter_write_stripped self _) H)).
Defined.

(** X7. Both writers treat a message and the same message already
    stripped alike: the white space around a message never reaches the
    logger or the print function, and stripping first changes nothing. *)
Theorem writers_strip_once
    (self : Opyplus.LoggerStreamWriter.t) (message : string) :
  Opyplus.LoggerStreamWriter.write self (PyStr.strip message)
  = Opyplus.LoggerStreamWriter.write self message
  /\ Opyplus.PrintFunctionStreamWriter.write (PyStr.strip message)
     = Opyplus.PrintFunctionStreamWriter.write message.
Proof.
  unfold Opyplus.LoggerStreamWriter.write, Opyplus.PrintFunctionStreamWriter.write.
  cbv zeta. now rewrite strip_idempotent.
Qed.

(** ** More on the relay *)

Section RelayMore.

Import Opyplus.

Variable dst : sink.

Lemma first_set_le (stop : nat -> bool) (n : nat) : (first_set stop n <= n)%nat.
Proof.
  revert stop. induction n as [| n IH]; intros stop; simpl; [lia |].
  destruct (stop 0%nat); [lia |]. specialize (IH (fun k => stop (S k))). lia.
Qed.

Lemma until_eos_not_eos (src : list read_outcome) :
  Forall (fun r => is_eos r = false) (until_eos src).
Proof.
  induction src as [| r src IH]; simpl; [constructor |].
  destruct (is_eos r) eqn:E; constructor; assumption.
Qed.

Lemma until_eos_drop (k : nat) :
  forall src, (k <= length (until_eos src))%nat ->
  until_eos (drop k src) = drop k (until_eos src).
Proof.
  induction k as [| k IH]; intros src Hk; [reflexivity |].
  destruct src as [| r src]; [reflexivity |].
  simpl in *. destruct (is_eos r); simpl in *; [lia |].
  apply IH. lia.
Qed.

(** The run that no flag stops. *)
Lemma _redirect_stream_to_the_end (src : list read_outcome) :
  fst (_redirect_stream src dst (fun _ => false))
  = concat (map (forwarded dst) (until_eos src)).
Proof.
  rewrite _redirect_stream_events, first_set_never by reflexivity.
  now rewrite firstn_all.
Qed.

Lemma written_to_app (a b : list event) :
  written_to dst (a ++ b) = written_to dst a ++ written_to dst b.
Proof. unfold written_to. apply flat_map_app. Qed.

Lemma written_to_forwarded (l : list read_outcome) :
  written_to dst (concat (map (forwarded dst) l)) = map content_of l.
Proof.
  assert (Hsame : String.eqb (sink_name dst) (sink_name dst)
                  && Bool.eqb (has_flush dst) (has_flush dst) = true)
    by (rewrite String.eqb_refl, eqb_reflx; reflexivity).
  assert (Hflush : written_to dst (flushed dst) = []).
  { unfold flushed. destruct (has_flush dst); reflexivity. }
  induction l as [| r l IH]; [reflexivity |].
  cbn [map concat]. rewrite written_to_app, IH. destruct r as [c | e].
  - change (forwarded dst (Line c)) with ([EWrite dst c] ++ flushed dst).
    rewrite written_to_app, Hflush. cbn. now rewrite Hsame.
  - change (forwarded dst (DecodeError e))
      with ([ELogError e; EWrite dst "unicode decode error"] ++ flushed dst).
    rewrite written_to_app, Hflush. cbn. now rewrite Hsame.
Qed.

End RelayMore.

(** X8. A relay whose destination is a [LoggerStreamWriter]: the logger
    is called once for each line that is forwarded and is not white
    space only, in the order of the source, with the line stripped (the
    end of line that [readline] keeps is gone), and with
    ["unicode decode error"] for a read that failed to decode; the writer
    has no [flush], so none is called. *)
Theorem relay_into_logger (self : Opyplus.LoggerStreamWriter.t)
    (src : list read_outcome) (stop : nat -> bool) :
  let dst := Opyplus.LoggerStreamWriter.as_sink self in
  let evs := fst (Opyplus._redirect_stream src dst stop) in
  flat_map (Opyplus.LoggerStreamWriter.write self) (Opyplus.written_to dst evs)
  = flat_map (fun r => Opyplus.LoggerStreamWriter.write self (content_of r))
      (take (first_set stop (length (until_eos src))) (until_eos src))
  /\ forall d, ~ In (EFlush d) evs.
Proof.
  intros dst evs. unfold evs. rewrite _redirect_stream_events.
  generalize (take (first_set stop (length (until_eos src))) (until_eos src)) as l.
  intros l. split.
  - rewrite written_to_forwarded. induction l as [| r l IH]; [reflexivity |].
    cbn [map flat_map]. now rewrite IH.
  - intros d. induction l as [| r l IH]; [intros [] |].
    cbn [map concat]. intros Hin. apply in_app_or in Hin as [Hin | Hin]; [| auto].
    destruct r as [c | e]; cbn in Hin; intuition discriminate.
Qed.

(** X9. Whatever the source gives and whenever the flag is set, the relay
    writes to its destination only, never writes the empty string,
    flushes its destination only and only when it has a [flush], and
    does nothing else but log decode errors. *)
Theorem _redirect_stream_touches_dst_only (src : list read_outcome) (dst : sink)
    (stop : nat -> bool) :
  Forall
    (fun e =>
       match e with
       | EWrite d text => d = dst /\ text <> EmptyString
       | EFlush d => d = dst /\ has_flush dst = true
       | ELogError _ => True
       | _ => False
       end)
    (fst (Opyplus._redirect_stream src dst stop)).
Proof.
  rewrite _redirect_stream_events.
  assert (Hl : Forall (fun r => is_eos r = false)
                 (take (first_set stop (length (until_eos src))) (until_eos src)))
    by (apply Forall_take, until_eos_not_eos).
  revert Hl.
  generalize (take (first_set stop (length (until_eos src))) (until_eos src)) as l.
  intros l Hl. induction Hl as [| r l Hr _ IH]; [constructor |].
  cbn [map concat]. apply Forall_app. split; [| exact IH].
  assert (Hf : Forall
    (fun e => match e with
              | EWrite d text => d = dst /\ text <> EmptyString
              | EFlush d => d = dst /\ has_flush dst = true
              | ELogError _ => True
              | _ => False
              end) (flushed dst)).
  { unfold flushed. destruct (has_flush dst) eqn:E; repeat constructor. }
  destruct r as [c | e]; cbn [forwarded].
  - constructor; [| exact Hf]. split; [reflexivity |].
    intros ->. discriminate Hr.
  - constructor; [exact I |]. constructor; [| exact Hf].
    split; [reflexivity | discriminate].
Qed.


(** X11. A relay stopped by its flag loses nothing of the source: a
    second relay on what the first left unread forwards the rest, and
    the two together have done what one relay does that is never
    stopped. *)
Theorem _redirect_stream_resumes (src : list read_outcome) (dst : sink)
    (stop : nat -> bool) :
  stop (first_set stop (length (until_eos src))) = true ->
  let first := Opyplus._redirect_stream src dst stop in
  fst first ++ fst (Opyplus._redirect_stream (snd first) dst (fun _ => false))
  = fst (Opyplus._redirect_stream src dst (fun _ => false)).
Proof.
  intros Hstop first. unfold first.
  rewrite (_redirect_stream_unread_flag dst src stop Hstop).
  rewrite !_redirect_stream_to_the_end, _redirect_stream_events.
  rewrite until_eos_drop by apply first_set_le.
  now rewrite <- concat_app, <- map_app, take_drop.
Qed.

Lemma _redirect_stream_resumes_witness :
  let src := [Line "a"; Line "b"; Line "c"] in
  let stop := fun k => (1 <=? k)%nat in
  stop (first_set stop (length (until_eos src))) = true
  /\ fst (Opyplus._redirect_stream src sample_err stop)
       ++ fst (Opyplus._redirect_stream
                 (snd (Opyplus._redirect_stream src sample_err stop))
                 sample_err (fun _ => false))
     = [EWrite sample_err "a"; EWrite sample_err "b"; EWrite sample_err "c"].
Proof.
  intros src stop.
  assert (H : stop (first_set stop (length (until_eos src))) = true) by reflexivity.
  split; [exact H |].
  exact (_redirect_stream_resumes src sample_err stop H).
Defined.

(** ** What the relay threads forward, under every schedule *)

Section RelayThreads.

Import Opyplus Supervisor.

(** One step of a relay: it stops without a trace, or it forwards the
    next read of its source. *)
Lemma relay_step_cases (r r' : relay) (evs : list event) :
  relay_step r = Some (r', evs) ->
  r_dst r' = r_dst r
  /\ stop_event r' = stop_event r
  /\ ((evs = [] /\ alive r' = false
       /\ (stop_event r = true \/ until_eos (r_src r) = []))
      \/ (exists x, is_eos x = false /\ r_src r = x :: r_src r'
            /\ evs = forwarded (r_dst r) x /\ alive r' = true
            /\ stop_event r = false)).
Proof.
  unfold relay_step. destruct (alive r); [| discriminate].
  unfold _redirect_stream_iteration, readline.
  destruct (stop_event r) eqn:Hstop.
  - intros H. injection H as <- <-. simpl. do 2 (split; [reflexivity |]). left. auto.
  - destruct (r_src r) as [| [c | e] src'] eqn:Hsrc.
    + simpl. intros H. injection H as <- <-. simpl. do 2 (split; [reflexivity |]). left. auto.
    + destruct (String.eqb c EmptyString) eqn:Ec.
      * intros H. injection H as <- <-. simpl. rewrite Ec. do 2 (split; [reflexivity |]). left. auto.
      * intros H. injection H as <- <-. simpl. repeat split; try assumption.
        right. exists (Line c). simpl. now rewrite Ec.
    + simpl. intros H. injection H as <- <-. simpl. repeat split; try assumption.
      right. exists (DecodeError e). simpl. auto.
Qed.

Lemma relay_progress_step (src : list read_outcome) (dst : sink)
    (r r' : relay) (evs evs' : list event) :
  relay_progress src dst (Some r) evs ->
  relay_step r = Some (r', evs') ->
  relay_progress src dst (Some r') (evs ++ evs').
Proof.
  intros (Hdst & done_ & Hevs & Hrest & Halive & _) Hstep.
  destruct (relay_step_keeps _ _ _ Hstep) as (_ & _ & Ha).
  destruct (relay_step_cases _ _ _ Hstep)
    as (Hdst' & Hstop & [(-> & Hdead & Hwhy) | (x & Hx & Hsrc & -> & Ha' & _)]).
  - split; [congruence |]. exists done_. rewrite app_nil_r.
    repeat split; try assumption; [congruence |].
    intros _ Hunset. rewrite Hstop in Hunset.
    destruct Hwhy as [Hset | Heos]; [congruence |].
    rewrite (Halive Ha), Heos. apply app_nil_r.
  - split; [congruence |]. exists (done_ ++ [x]).
    specialize (Halive Ha). rewrite Hsrc in Halive. simpl in Halive.
    rewrite Hx in Halive.
    rewrite map_app, concat_app, Hevs, Hdst. simpl. rewrite app_nil_r.
    split; [reflexivity |]. split; [| split].
    + exists (until_eos (r_src r')). rewrite <- app_assoc. exact Halive.
    + intros _. rewrite <- app_assoc. exact Halive.
    + congruence.
Qed.

Lemma relay_progress_set (src : list read_outcome) (dst : sink)
    (t : option relay) (evs : list event) :
  relay_progress src dst t evs -> relay_progress src dst (set <$> t) evs.
Proof.
  destruct t as [r |]; simpl; [| auto].
  intros (Hdst & done_ & Hevs & Hrest & Halive & _).
  split; [exact Hdst |]. exists done_. repeat split; try assumption.
  discriminate.
Qed.

Lemma relay_progress_start (src : list read_outcome) (dst : sink) :
  relay_progress src dst (Some (start src dst)) [].
Proof.
  split; [reflexivity |]. exists []. simpl. repeat split; eauto.
  discriminate.
Qed.

Lemma relay_progress_prefix (src : list read_outcome) (dst : sink)
    (t : option relay) (evs : list event) :
  relay_progress src dst t evs ->
  exists rest, evs ++ rest = concat (map (forwarded dst) (until_eos src)).
Proof.
  destruct t as [r |]; simpl.
  - intros (_ & done_ & -> & [rest ->] & _).
    exists (concat (map (forwarded dst) rest)).
    now rewrite map_app, concat_app.
  - intros ->. eauto.
Qed.

(** *** In a session *)

Lemma session_progress_step (src : list read_outcome) (dst : sink) (body : nat)
    (t : thread) (s s' : session) :
  relay_progress src dst (s_relay s) (events_of (Relay 0) (s_trace s)) ->
  session_inv dst s ->
  redirect_stream_step src dst body t s = Some s' ->
  relay_progress src dst (s_relay s') (events_of (Relay 0) (s_trace s')).
Proof.
  intros Hp Hinv Hstep. destruct t as [| [| n]]; simpl in Hstep; [| | discriminate].
  - unfold session_main_step in Hstep. unfold session_inv in Hinv.
    destruct (s_pc s) as [| [| k] | | |].
    + injection Hstep as <-. simpl. rewrite events_of_app. simpl.
      rewrite Hinv in Hp. simpl in Hp. rewrite Hp.
      apply relay_progress_start.
    + injection Hstep as <-. exact Hp.
    + injection Hstep as <-. exact Hp.
    + injection Hstep as <-. simpl. rewrite events_of_app. simpl.
      rewrite app_nil_r. now apply relay_progress_set.
    + destruct (s_relay s) as [r |]; [| discriminate]. simpl in Hstep.
      unfold join in Hstep. destruct (alive r); [discriminate |].
      simpl in Hstep. injection Hstep as <-. simpl.
      rewrite events_of_app. simpl. now rewrite app_nil_r.
    + discriminate.
  - unfold session_relay_step in Hstep.
    destruct (s_relay s) as [r |]; [| discriminate]. simpl in Hstep.
    destruct (relay_step r) as [[r' evs] |] eqn:Hr; [| discriminate].
    simpl in Hstep. injection Hstep as <-. simpl.
    rewrite events_of_app, events_of_tagged. simpl.
    eapply relay_progress_step; eassumption.
Qed.

Lemma session_progress_run (src : list read_outcome) (dst : sink) (body : nat)
    (schedule : list thread) :
  forall s,
    relay_progress src dst (s_relay s) (events_of (Relay 0) (s_trace s)) ->
    session_inv dst s ->
    relay_progress src dst
      (s_relay (redirect_stream src dst body schedule s))
      (events_of (Relay 0) (s_trace (redirect_stream src dst body schedule s))).
Proof.
  induction schedule as [| t schedule IH]; intros s Hp Hinv; simpl; [exact Hp |].
  destruct (redirect_stream_step src dst body t s) as [s' |] eqn:E; simpl.
  - apply IH.
    + eapply session_progress_step; eassumption.
    + eapply session_inv_step; eassumption.
  - now apply IH.
Qed.

End RelayThreads.

(** X12. In a session of [redirect_stream], under every schedule and at
    every moment, what the relay thread has done is a beginning of the
    forwarding of the whole source: it forwards the lines in their
    order, none twice and none that the source did not give. *)
Theorem redirect_stream_forwards_in_order (src : list read_outcome) (dst : sink)
    (body : nat) (schedule : list Opyplus.thread) :
  let s := Opyplus.redirect_stream src dst body schedule
             Opyplus.redirect_stream_init in
  exists rest,
    Supervisor.events_of (Opyplus.Relay 0) (Opyplus.s_trace s) ++ rest
    = concat (map (forwarded dst) (until_eos src)).
Proof.
  intros s. eapply relay_progress_prefix.
  apply session_progress_run; reflexivity.
Qed.

(** ** What the relays of [run_subprocess] forward *)

Section SupervisorRelays.

Import Opyplus Supervisor.

Variables (os : system) (c : call) (p : process).
Hypothesis HP : Popen os (command c) (cwd c) (shell c) = Ok p.

Let progress_out (s : supervisor) : Prop :=
  relay_progress (p_stdout p) (stdout_of os c) (out_t s)
    (events_of (Relay 0) (trace s)).

Let progress_err (s : supervisor) : Prop :=
  relay_progress (p_stderr p) (stderr_of os c) (err_t s)
    (events_of (Relay 1) (trace s)).

Lemma supervisor_progress_step (t : thread) (s s' : supervisor) :
  main_inv os c p s -> relays_inv s ->
  progress_out s -> progress_err s ->
  run_subprocess_step os c t s = Some s' ->
  progress_out s' /\ progress_err s'.
Proof.
  unfold progress_out, progress_err.
  intros (n & _ & Hm) Hr Ho He Hstep.
  destruct t as [| [| [| k]]]; simpl in Hstep; [| | | discriminate].
  - (* the main thread *)
    unfold main_step in Hstep. unfold relays_inv in Hr.
    destruct (pc s) eqn:Hpc.
    + rewrite HP in Hstep. injection Hstep as <-. simpl.
      rewrite !events_of_app. simpl. now rewrite ?app_nil_r.
    + destruct Hm as [Hp _]. rewrite Hp in Hstep. simpl in Hstep.
      injection Hstep as <-. simpl. rewrite !events_of_app. simpl.
      rewrite ?app_nil_r. split; [| exact He].
      destruct Hr as [Hnone _]. rewrite Hnone in Ho. simpl in Ho. rewrite Ho.
      apply relay_progress_start.
    + destruct Hm as [Hp _]. rewrite Hp in Hstep. simpl in Hstep.
      injection Hstep as <-. simpl. rewrite !events_of_app. simpl.
      rewrite ?app_nil_r. split; [exact Ho |].
      destruct Hr as [_ Hnone]. rewrite Hnone in He. simpl in He. rewrite He.
      apply relay_progress_start.
    + destruct Hm as (p' & Hp & _). rewrite Hp in Hstep. simpl in Hstep.
      destruct (wait (beat_freq c) p') as [expired p''].
      injection Hstep as <-. simpl. rewrite !events_of_app. simpl.
      now rewrite ?app_nil_r.
    + injection Hstep as <-. simpl. rewrite !events_of_app, ?events_of_tagged.
      simpl. now rewrite ?app_nil_r.
    + injection Hstep as <-. simpl. rewrite !events_of_app, ?events_of_tagged.
      simpl. now rewrite ?app_nil_r.
    + injection Hstep as <-. simpl. rewrite !events_of_app. simpl.
      rewrite ?app_nil_r. split; [exact Ho |]. now apply relay_progress_set.
    + destruct (err_t s) as [r |] eqn:Ht; [| discriminate]. simpl in Hstep.
      destruct (join r); [| discriminate]. simpl in Hstep.
      injection Hstep as <-. simpl. rewrite !events_of_app, ?events_of_tagged.
      simpl. rewrite ?app_nil_r, ?Ht. auto.
    + injection Hstep as <-. simpl. rewrite !events_of_app. simpl.
      rewrite ?app_nil_r. split; [| exact He]. now apply relay_progress_set.
    + destruct (out_t s) as [r |] eqn:Ht; [| discriminate]. simpl in Hstep.
      destruct (join r); [| discriminate]. simpl in Hstep.
      injection Hstep as <-. simpl. rewrite !events_of_app, ?events_of_tagged.
      simpl. rewrite ?app_nil_r, ?Ht. auto.
    + destruct Hm as (p' & Hp & _). rewrite Hp in Hstep. simpl in Hstep.
      injection Hstep as <-. simpl. rewrite !events_of_app, ?events_of_tagged.
      simpl. now rewrite ?app_nil_r.
    + discriminate.
    + discriminate.
  - (* the relay of stdout *)
    unfold out_step in Hstep.
    destruct (out_t s) as [r |]; [| discriminate]. simpl in Hstep.
    destruct (relay_step r) as [[r' evs] |] eqn:Hrs; [| discriminate].
    simpl in Hstep. injection Hstep as <-. simpl.
    rewrite !events_of_app, ?events_of_tagged. simpl. rewrite ?app_nil_r.
    split; [| exact He]. eapply relay_progress_step; eassumption.
  - (* the relay of stderr *)
    unfold err_step in Hstep.
    destruct (err_t s) as [r |]; [| discriminate]. simpl in Hstep.
    destruct (relay_step r) as [[r' evs] |] eqn:Hrs; [| discriminate].
    simpl in Hstep. injection Hstep as <-. simpl.
    rewrite !events_of_app, ?events_of_tagged. simpl. rewrite ?app_nil_r.
    split; [exact Ho |]. eapply relay_progress_step; eassumption.
Qed.

Lemma supervisor_progress_run (schedule : list thread) :
  forall s,
    main_inv os c p s -> relays_inv s ->
    progress_out s -> progress_err s ->
    progress_out (run_subprocess os c schedule s)
    /\ progress_err (run_subprocess os c schedule s).
Proof.
  induction schedule as [| t schedule IH]; intros s Hm Hr Ho He; simpl; [auto |].
  destruct (run_subprocess_step os c t s) as [s' |] eqn:E; simpl; [| now apply IH].
  destruct (supervisor_inv_step os c p t s s' HP Hm Hr E).
  destruct (supervisor_progress_step t s s' Hm Hr Ho He E).
  now apply IH.
Qed.

Lemma supervisor_progress (schedule : list thread) :
  let s := run_subprocess os c schedule run_subprocess_init in
  progress_out s /\ progress_err s.
Proof.
  destruct (supervisor_inv_init os c p).
  apply supervisor_progress_run; try assumption; reflexivity.
Qed.

Lemma run_subprocess_relays_in_order_aux (schedule : list thread) :
  let s := run_subprocess os c schedule run_subprocess_init in
  (exists rest,
     events_of (Relay 0) (trace s) ++ rest
     = concat (map (forwarded (stdout_of os c)) (until_eos (p_stdout p))))
  /\ (exists rest,
      events_of (Relay 1) (trace s) ++ rest
      = concat (map (forwarded (stderr_of os c)) (until_eos (p_stderr p)))).
Proof.
  intros s. destruct (supervisor_progress schedule) as [Ho He].
  split; eapply relay_progress_prefix; eassumption.
Qed.

End SupervisorRelays.

(** X13. In [run_subprocess], under every schedule and at every moment,
    what the relay of the output pipe has done is a beginning of the
    forwarding of the output of the child to the output sink, and what
    the relay of the error pipe has done is a beginning of the forwarding
    of its error output to the error sink: each relay keeps the order of
    its pipe and never forwards a line of the other pipe. *)
Theorem run_subprocess_relays_in_order (os : Opyplus.system) (c : Opyplus.call)
    (p : Opyplus.process) (schedule : list Opyplus.thread) :
  Opyplus.Popen os (Opyplus.command c) (Opyplus.cwd c) (Opyplus.shell c) = Ok p ->
  let s := Opyplus.run_subprocess os c schedule Opyplus.run_subprocess_init in
  (exists rest,
     Supervisor.events_of (Opyplus.Relay 0) (Opyplus.trace s) ++ rest
     = concat (map (forwarded (Opyplus.stdout_of os c))
                 (until_eos (Opyplus.p_stdout p))))
  /\ (exists rest,
      Supervisor.events_of (Opyplus.Relay 1) (Opyplus.trace s) ++ rest
      = concat (map (forwarded (Opyplus.stderr_of os c))
                  (until_eos (Opyplus.p_stderr p)))).
Proof.
  intros HP. apply run_subprocess_relays_in_order_aux, HP.
Qed.

Lemma run_subprocess_relays_in_order_witness :
  let os := sample_system in
  let c := sample_call "energyplus" in
  let schedule := [Opyplus.Main; Opyplus.Main; Opyplus.Main;
                   Opyplus.Relay 0; Opyplus.Relay 1] in
  let s := Opyplus.run_subprocess os c schedule Opyplus.run_subprocess_init in
  Opyplus.Popen os (Opyplus.command c) (Opyplus.cwd c) (Opyplus.shell c)
  = Ok sample_process
  /\ Supervisor.events_of (Opyplus.Relay 0) (Opyplus.trace s)
     = [EWrite sample_out "warming up"; EFlush sample_out]
  /\ exists rest,
       Supervisor.events_of (Opyplus.Relay 0) (Opyplus.trace s) ++ rest
       = concat (map (forwarded sample_out) [Line "warming up"; Line "done"]).
Proof.
  intros os c schedule s.
  assert (HP : Opyplus.Popen os (Opyplus.command c) (Opyplus.cwd c)
                 (Opyplus.shell c) = Ok sample_process) by reflexivity.
  split; [exact HP |]. split; [reflexivity |].
  exact (proj1 (run_subprocess_relays_in_order os c sample_process schedule HP)).
Defined.

(** ** Schedules that deliver everything, and schedules that deliver
    nothing *)

Section Delivery.

Import Opyplus Supervisor.

Variables (os : system) (c : call) (p : process).
Hypothesis HP : Popen os (command c) (cwd c) (shell c) = Ok p.

(** The trace only grows. *)
Lemma trace_grows_step (t : thread) (s s' : supervisor) :
  run_subprocess_step os c t s = Some s' -> exists tr, trace s' = trace s ++ tr.
Proof.
  intros Hstep. destruct t as [| [| [| k]]]; simpl in Hstep; [| | | discriminate].
  - unfold main_step, goto in Hstep.
    destruct (pc s);
      repeat match type of Hstep with
             | context [match ?x with _ => _ end] => destruct x
             | context [mbind _ ?x] => destruct x; simpl in Hstep
             end;
      try discriminate; injection Hstep as <-; simpl;
      solve [eexists; reflexivity | exists []; now rewrite app_nil_r].
  - unfold out_step in Hstep. destruct (out_t s) as [r |]; [| discriminate].
    simpl in Hstep. destruct (relay_step r) as [[r' evs] |]; [| discriminate].
    simpl in Hstep. injection Hstep as <-. simpl. eauto.
  - unfold err_step in Hstep. destruct (err_t s) as [r |]; [| discriminate].
    simpl in Hstep. destruct (relay_step r) as [[r' evs] |]; [| discriminate].
    simpl in Hstep. injection Hstep as <-. simpl. eauto.
Qed.

Lemma trace_grows (schedule : list thread) :
  forall s, exists tr, trace (run_subprocess os c schedule s) = trace s ++ tr.
Proof.
  induction schedule as [| t schedule IH]; intros s; simpl.
  - exists []. now rewrite app_nil_r.
  - destruct (run_subprocess_step os c t s) as [s' |] eqn:E; simpl; [| apply IH].
    destruct (trace_grows_step t s s' E) as [tr1 H1].
    destruct (IH s') as [tr2 H2]. exists (tr1 ++ tr2).
    now rewrite H2, H1, app_assoc.
Qed.

(** The state once the process and the two relays are started. *)
Lemma after_start :
  run_subprocess os c [Main; Main; Main] run_subprocess_init
  = {| pc := MWait; sub_p := Some p;
       out_t := Some (start (p_stdout p) (stdout_of os c));
       err_t := Some (start (p_stderr p) (stderr_of os c));
       trace := tagged Main (opening os c) |}.
Proof. simpl. unfold main_step. simpl. rewrite HP. reflexivity. Qed.

(** One turn of a relay of the call. *)
Lemma out_turn (s : supervisor) (r : relay) :
  out_t s = Some r ->
  exists s1 r1,
    run_subprocess os c [Relay 0] s = s1
    /\ pc s1 = pc s /\ sub_p s1 = sub_p s /\ err_t s1 = err_t s
    /\ out_t s1 = Some r1 /\ stop_event r1 = stop_event r
    /\ (alive r1 = false
        \/ S (length (r_src r1)) = length (r_src r)).
Proof.
  intros Hr. cbn [run_subprocess run_subprocess_step]. unfold out_step.
  rewrite Hr. simpl. destruct (relay_step r) as [[r1 evs] |] eqn:Hstep; simpl.
  - destruct (relay_step_cases _ _ _ Hstep)
      as (_ & Hstop & [(_ & Ha & _) | (x & _ & Hsrc & _)]).
    + eexists _, r1. repeat split; auto.
    + eexists _, r1. repeat split; auto. right. now rewrite Hsrc.
  - exists s, r. repeat split; auto. left.
    unfold relay_step in Hstep. destruct (alive r); [| reflexivity].
    destruct (_redirect_stream_iteration _ _ _) as [[? | ?] ?]; discriminate.
Qed.

Lemma err_turn (s : supervisor) (r : relay) :
  err_t s = Some r ->
  exists s1 r1,
    run_subprocess os c [Relay 1] s = s1
    /\ pc s1 = pc s /\ sub_p s1 = sub_p s /\ out_t s1 = out_t s
    /\ err_t s1 = Some r1 /\ stop_event r1 = stop_event r
    /\ (alive r1 = false
        \/ S (length (r_src r1)) = length (r_src r)).
Proof.
  intros Hr. cbn [run_subprocess run_subprocess_step]. unfold err_step.
  rewrite Hr. simpl. destruct (relay_step r) as [[r1 evs] |] eqn:Hstep; simpl.
  - destruct (relay_step_cases _ _ _ Hstep)
      as (_ & Hstop & [(_ & Ha & _) | (x & _ & Hsrc & _)]).
    + eexists _, r1. repeat split; auto.
    + eexists _, r1. repeat split; auto. right. now rewrite Hsrc.
  - exists s, r. repeat split; auto. left.
    unfold relay_step in Hstep. destruct (alive r); [| reflexivity].
    destruct (_redirect_stream_iteration _ _ _) as [[? | ?] ?]; discriminate.
Qed.

(** Given turns enough, a relay reads its source to the end and stops;
    the flag and the other threads are as they were. *)
Lemma out_drain (n : nat) :
  forall s r,
    out_t s = Some r -> (length (r_src r) <= n)%nat ->
    let s' := run_subprocess os c (repeat (Relay 0) (S n)) s in
    pc s' = pc s /\ sub_p s' = sub_p s /\ err_t s' = err_t s
    /\ exists r', out_t s' = Some r' /\ alive r' = false
                  /\ stop_event r' = stop_event r.
Proof.
  assert (Hdead : forall k s r, out_t s = Some r -> alive r = false ->
            run_subprocess os c (repeat (Relay 0) k) s = s).
  { induction k as [| k IHk]; intros s r Hr Ha; [reflexivity |].
    simpl. unfold out_step. rewrite Hr. simpl.
    rewrite (relay_step_dead r Ha). simpl. eapply IHk; eassumption. }
  induction n as [| n IH]; intros s r Hr Hlen s'; subst s';
    change (repeat (Relay 0) (S ?k)) with ([Relay 0] ++ repeat (Relay 0) k);
    rewrite run_subprocess_app;
    destruct (out_turn s r Hr) as (s1 & r1 & -> & H1 & H2 & H3 & H4 & H5 & H6).
  - destruct H6 as [Ha | Hlen1]; [| lia].
    simpl. rewrite <- H5. eauto 10.
  - destruct H6 as [Ha | Hlen1].
    + rewrite (Hdead _ _ _ H4 Ha). rewrite <- H5. eauto 10.
    + destruct (IH _ r1 H4) as (G1 & G2 & G3 & r' & G4 & G5 & G6); [lia |].
      repeat split; try congruence. exists r'. repeat split; congruence.
Qed.

Lemma err_drain (n : nat) :
  forall s r,
    err_t s = Some r -> (length (r_src r) <= n)%nat ->
    let s' := run_subprocess os c (repeat (Relay 1) (S n)) s in
    pc s' = pc s /\ sub_p s' = sub_p s /\ out_t s' = out_t s
    /\ exists r', err_t s' = Some r' /\ alive r' = false
                  /\ stop_event r' = stop_event r.
Proof.
  assert (Hdead : forall k s r, err_t s = Some r -> alive r = false ->
            run_subprocess os c (repeat (Relay 1) k) s = s).
  { induction k as [| k IHk]; intros s r Hr Ha; [reflexivity |].
    simpl. unfold err_step. rewrite Hr. simpl.
    rewrite (relay_step_dead r Ha). simpl. eapply IHk; eassumption. }
  induction n as [| n IH]; intros s r Hr Hlen s'; subst s';
    change (repeat (Relay 1) (S ?k)) with ([Relay 1] ++ repeat (Relay 1) k);
    rewrite run_subprocess_app;
    destruct (err_turn s r Hr) as (s1 & r1 & -> & H1 & H2 & H3 & H4 & H5 & H6).
  - destruct H6 as [Ha | Hlen1]; [| lia].
    simpl. rewrite <- H5. eauto 10.
  - destruct H6 as [Ha | Hlen1].
    + rewrite (Hdead _ _ _ H4 Ha). rewrite <- H5. eauto 10.
    + destruct (IH _ r1 H4) as (G1 & G2 & G3 & r' & G4 & G5 & G6); [lia |].
      repeat split; try congruence. exists r'. repeat split; congruence.
Qed.

End Delivery.

(** X14. Whatever the child writes and however long it runs, there is a
    schedule under which [run_subprocess] returns its exit code with
    every line of its output forwarded to the output sink and every
    line of its error output forwarded to the error sink: the relays had
    their turns before the flags were set. *)
Theorem run_subprocess_can_deliver_all (os : Opyplus.system) (c : Opyplus.call)
    (p : Opyplus.process) :
  Opyplus.Popen os (Opyplus.command c) (Opyplus.cwd c) (Opyplus.shell c) = Ok p ->
  exists schedule,
    let s := Opyplus.run_subprocess os c schedule Opyplus.run_subprocess_init in
    Opyplus.outcome s = Some (Ok (Opyplus.returncode p))
    /\ Supervisor.events_of (Opyplus.Relay 0) (Opyplus.trace s)
       = concat (map (forwarded (Opyplus.stdout_of os c))
                   (until_eos (Opyplus.p_stdout p)))
    /\ Supervisor.events_of (Opyplus.Relay 1) (Opyplus.trace s)
       = concat (map (forwarded (Opyplus.stderr_of os c))
                   (until_eos (Opyplus.p_stderr p))).
Proof.
  intros HP.
  set (sch1 := [Opyplus.Main; Opyplus.Main; Opyplus.Main]
                 ++ repeat (Opyplus.Relay 0) (S (length (Opyplus.p_stdout p)))
                 ++ repeat (Opyplus.Relay 1) (S (length (Opyplus.p_stderr p)))).
  set (s5 := Opyplus.run_subprocess os c sch1 Opyplus.run_subprocess_init).
  (* the two relays have stopped at the end of their pipes *)
  assert (Hrelays :
    (exists r, Opyplus.out_t s5 = Some r /\ Opyplus.alive r = false
               /\ Opyplus.stop_event r = false)
    /\ (exists r, Opyplus.err_t s5 = Some r /\ Opyplus.alive r = false
                  /\ Opyplus.stop_event r = false)).
  { unfold s5, sch1. rewrite !run_subprocess_app, (after_start os c p HP).
    set (s3 := {| Opyplus.pc := Opyplus.MWait; Opyplus.sub_p := Some p;
                  Opyplus.out_t := Some (Opyplus.start (Opyplus.p_stdout p)
                                           (Opyplus.stdout_of os c));
                  Opyplus.err_t := Some (Opyplus.start (Opyplus.p_stderr p)
                                           (Opyplus.stderr_of os c));
                  Opyplus.trace := Opyplus.tagged Opyplus.Main
                                     (Supervisor.opening os c) |}).
    destruct (out_drain os c (length (Opyplus.p_stdout p)) s3 _ eq_refl
                (Nat.le_refl _))
      as (_ & _ & He4 & r0 & Ho4 & Ha0 & Hs0).
    destruct (err_drain os c (length (Opyplus.p_stderr p)) _ _ He4
                (Nat.le_refl _))
      as (_ & _ & Ho5 & r1 & He5 & Ha1 & Hs1).
    split.
    - exists r0. rewrite Ho5. auto.
    - exists r1. auto. }
  destruct Hrelays as [(r0 & Ho & Ha0 & Hs0) (r1 & He & Ha1 & Hs1)].
  destruct (supervisor_inv_init os c p) as [Hm0 Hr0].
  destruct (supervisor_inv_run os c p sch1 HP _ Hm0 Hr0) as [Hm Hr].
  fold s5 in Hm, Hr.
  destruct (supervisor_progress os c p HP sch1) as [Hpo Hpe].
  fold s5 in Hpo, Hpe. rewrite Ho in Hpo. rewrite He in Hpe.
  destruct Hpo as (_ & d0 & Hev0 & _ & _ & Hall0).
  destruct Hpe as (_ & d1 & Hev1 & _ & _ & Hall1).
  rewrite <- (Hall0 Ha0 Hs0) in Hev0. rewrite <- (Hall1 Ha1 Hs1) in Hev1.
  destruct (return_reachable os c p HP s5 Hm Hr) as [more Hmore].
  exists (sch1 ++ more). cbv zeta.
  pose proof (run_subprocess_relays_in_order_aux os c p HP (sch1 ++ more))
    as Hpre.
  cbv zeta in Hpre. rewrite run_subprocess_app in Hpre |- *.
  fold s5 in Hpre |- *.
  split; [unfold Opyplus.outcome; now rewrite Hmore |].
  destruct (trace_grows os c p HP more s5) as [tr Htr].
  rewrite Htr, !events_of_app in Hpre. rewrite Htr, !events_of_app.
  rewrite Hev0, Hev1 in Hpre |- *.
  destruct Hpre as [[rest0 Hpre0] [rest1 Hpre1]].
  split.
  - rewrite <- app_assoc in Hpre0.
    rewrite <- (app_nil_r (concat _)) in Hpre0 at 2.
    apply app_inv_head, app_eq_nil in Hpre0. destruct Hpre0 as [-> _].
    apply app_nil_r.
  - rewrite <- app_assoc in Hpre1.
    rewrite <- (app_nil_r (concat _)) in Hpre1 at 2.
    apply app_inv_head, app_eq_nil in Hpre1. destruct Hpre1 as [-> _].
    apply app_nil_r.
Qed.

Lemma run_subprocess_can_deliver_all_witness :
  let os := sample_system in
  let c := sample_call "energyplus" in
  Opyplus.Popen os (Opyplus.command c) (Opyplus.cwd c) (Opyplus.shell c)
  = Ok sample_process
  /\ exists schedule,
       let s := Opyplus.run_subprocess os c schedule Opyplus.run_subprocess_init in
       Opyplus.outcome s = Some (Ok 3)
       /\ Supervisor.events_of (Opyplus.Relay 0) (Opyplus.trace s)
          = [EWrite sample_out "warming up"; EFlush sample_out;
             EWrite sample_out "done"; EFlush sample_out]
       /\ Supervisor.events_of (Opyplus.Relay 1) (Opyplus.trace s)
          = [EWrite sample_err "EnergyPlus Completed Successfully."].
Proof.
  intros os c.
  assert (HP : Opyplus.Popen os (Opyplus.command c) (Opyplus.cwd c)
                 (Opyplus.shell c) = Ok sample_process) by reflexivity.
  split; [exact HP |].
  exact (run_subprocess_can_deliver_all os c sample_process HP).
Defined.

Section Loss.

Import Opyplus Supervisor.

Variables (os : system) (c : call).

Lemma wait_over (p0 : process) :
  beats_left c p0 = 0%nat -> wait (beat_freq c) p0 = (false, p0).
Proof.
  unfold beats_left, wait. destruct (beat_freq c); [| now destruct (expiries p0)].
  now intros ->.
Qed.

Lemma wait_expires (p0 : process) (k : nat) :
  beats_left c p0 = S k ->
  exists p1, wait (beat_freq c) p0 = (true, p1)
             /\ beats_left c p1 = k /\ returncode p1 = returncode p0.
Proof.
  unfold beats_left, wait. destruct (beat_freq c); [| discriminate].
  intros ->. eexists. repeat split.
Qed.

Lemma main_step_wait (s : supervisor) (p0 : process) :
  pc s = MWait -> sub_p s = Some p0 ->
  main_step os c s
  = Some {| pc := if fst (wait (beat_freq c) p0) then MBeatWrite else MExitErrSet;
            sub_p := Some (snd (wait (beat_freq c) p0));
            out_t := out_t s; err_t := err_t s;
            trace := trace s ++ [(Main, EWait (beat_freq c))] |}.
Proof.
  intros Hpc Hp. unfold main_step. rewrite Hpc, Hp. simpl.
  now destruct (wait (beat_freq c) p0).
Qed.

(** Left to itself, the main thread goes through its heartbeats, sees
    the process end and tells the relay of the error pipe to stop; the
    relays are as they were. *)
Lemma main_alone_to_join (k : nat) :
  forall s p0,
    pc s = MWait -> sub_p s = Some p0 -> beats_left c p0 = k ->
    exists p1 evs,
      run_subprocess os c (repeat Main (3 * k + 2)) s
      = {| pc := MExitErrJoin; sub_p := Some p1; out_t := out_t s;
           err_t := set <$> err_t s; trace := trace s ++ tagged Main evs |}
      /\ returncode p1 = returncode p0.
Proof.
  induction k as [| k IH]; intros s p0 Hpc Hp Hk.
  - exists p0, [EWait (beat_freq c); ESet (stderr_of os c)].
    split; [| reflexivity].
    cbn [Nat.mul Nat.add repeat run_subprocess run_subprocess_step].
    rewrite (main_step_wait s p0 Hpc Hp), (wait_over p0 Hk). simpl.
    now rewrite <- app_assoc.
  - destruct (wait_expires p0 k Hk) as (p1 & Hw & Hk1 & Hrc1).
    replace (3 * S k + 2)%nat with (3 + (3 * k + 2))%nat by lia.
    rewrite repeat_app, run_subprocess_app.
    set (s3 := run_subprocess os c (repeat Main 3) s).
    assert (E3 : s3 = {| pc := MWait; sub_p := Some p1; out_t := out_t s;
                         err_t := err_t s;
                         trace := trace s ++ tagged Main (beat os c) |}).
    { unfold s3. cbn [repeat run_subprocess run_subprocess_step].
      rewrite (main_step_wait s p0 Hpc Hp), Hw. simpl.
      unfold goto, beat. simpl. unfold tagged, flushed.
      rewrite <- !app_assoc. reflexivity. }
    destruct (IH s3 p1) as (p2 & evs & Erun & Hrc2);
      [rewrite E3; reflexivity | rewrite E3; reflexivity | exact Hk1 |].
    exists p2, (beat os c ++ evs). split; [| congruence].
    rewrite Erun, E3. cbn [out_t err_t trace]. unfold tagged.
    now rewrite map_app, app_assoc.
Qed.

End Loss.

(** X15. Whatever the child writes and however long it runs, there is
    also a schedule under which [run_subprocess] returns its exit code
    and neither relay has forwarded anything: a relay that gets its first
    turn after its flag is set stops without a read, so the call does
    not wait for the pipes to be read to their end. *)
Theorem run_subprocess_can_deliver_nothing (os : Opyplus.system) (c : Opyplus.call)
    (p : Opyplus.process) :
  Opyplus.Popen os (Opyplus.command c) (Opyplus.cwd c) (Opyplus.shell c) = Ok p ->
  exists schedule,
    let s := Opyplus.run_subprocess os c schedule Opyplus.run_subprocess_init in
    Opyplus.outcome s = Some (Ok (Opyplus.returncode p))
    /\ Supervisor.events_of (Opyplus.Relay 0) (Opyplus.trace s) = []
    /\ Supervisor.events_of (Opyplus.Relay 1) (Opyplus.trace s) = [].
Proof.
  intros HP.
  exists ([Opyplus.Main; Opyplus.Main; Opyplus.Main]
            ++ repeat Opyplus.Main (3 * Supervisor.beats_left c p + 2)
            ++ [Opyplus.Relay 1; Opyplus.Main; Opyplus.Main;
                Opyplus.Relay 0; Opyplus.Main; Opyplus.Main]).
  cbv zeta. rewrite !run_subprocess_app, (after_start os c p HP).
  edestruct (main_alone_to_join os c (Supervisor.beats_left c p))
    as (p1 & evs & -> & Hrc); [reflexivity | reflexivity | reflexivity |].
  cbn. rewrite Hrc. split; [reflexivity |].
  rewrite !events_of_app, !events_of_tagged. cbn. auto.
Qed.

Lemma run_subprocess_can_deliver_nothing_witness :
  let os := sample_system in
  let c := sample_call "energyplus" in
  Opyplus.Popen os (Opyplus.command c) (Opyplus.cwd c) (Opyplus.shell c)
  = Ok sample_process
  /\ exists schedule,
       let s := Opyplus.run_subprocess os c schedule Opyplus.run_subprocess_init in
       Opyplus.outcome s = Some (Ok 3)
       /\ Supervisor.events_of (Opyplus.Relay 0) (Opyplus.trace s) = []
       /\ Supervisor.events_of (Opyplus.Relay 1) (Opyplus.trace s) = [].
Proof.
  intros os c.
  assert (HP : Opyplus.Popen os (Opyplus.command c) (Opyplus.cwd c)
                 (Opyplus.shell c) = Ok sample_process) by reflexivity.
  split; [exact HP |].
  exact (run_subprocess_can_deliver_nothing os c sample_process HP).
Defined.

(** ** Lines, and the copyright messages *)

Section Lines.

Import PyStr.

Lemma one_line_app (a b : string) : one_line (a +:+ b) = one_line a && one_line b.
Proof.
  induction a as [| c a IH]; [reflexivity |].
  change (String c a +:+ b) with (String c (a +:+ b)). simpl.
  now rewrite IH, andb_assoc.
Qed.

Lemma one_line_digits (d : Decimal.uint) :
  one_line (NilEmpty.string_of_uint d) = true.
Proof. induction d; simpl; auto. Qed.

Lemma one_line_str (n : Z) : one_line (str n) = true.
Proof.
  unfold str, NilZero.string_of_int, NilZero.string_of_uint.
  destruct (Z.to_int n) as [d | d]; destruct d;
    try reflexivity; apply (one_line_digits (_ d)) || apply one_line_digits.
Qed.

(** A line and its end, before more text. *)
Lemma splitlines_line (x u : string) :
  one_line x = true ->
  splitlines (x +:+ Opyplus.nl +:+ u) = (x +:+ Opyplus.nl) :: splitlines u.
Proof.
  intros Hx. induction x as [| c x IH].
  - change (EmptyString +:+ Opyplus.nl +:+ u) with (String (ascii_of_nat 10) u).
    cbn [splitlines]. destruct u; reflexivity.
  - change (String c x +:+ Opyplus.nl +:+ u)
      with (String c (x +:+ Opyplus.nl +:+ u)).
    simpl in Hx. apply andb_true_iff in Hx as [Hc Hx].
    apply negb_true_iff in Hc. cbn [splitlines]. rewrite Hc, (IH Hx).
    reflexivity.
Qed.

(** A last line without an end. *)
Lemma splitlines_last (x : string) :
  one_line x = true -> x <> EmptyString -> splitlines x = [x].
Proof.
  induction x as [| c x IH]; [congruence |].
  intros Hx _. simpl in Hx. apply andb_true_iff in Hx as [Hc Hx].
  apply negb_true_iff in Hc. cbn [splitlines]. rewrite Hc.
  destruct x as [| c' x']; [reflexivity |].
  rewrite (IH Hx); [reflexivity | discriminate].
Qed.

Lemma append_assoc (a b c : string) : (a +:+ b) +:+ c = a +:+ b +:+ c.
Proof.
  induction a as [| x a IH]; [reflexivity |].
  change (String x a +:+ b) with (String x (a +:+ b)).
  change (String x (a +:+ b) +:+ c) with (String x ((a +:+ b) +:+ c)).
  now rewrite IH.
Qed.

Lemma splitlines_line2 (x1 x2 u : string) :
  one_line (x1 +:+ x2) = true ->
  splitlines (x1 +:+ x2 +:+ Opyplus.nl +:+ u)
  = ((x1 +:+ x2) +:+ Opyplus.nl) :: splitlines u.
Proof.
  intros H. rewrite <- (append_assoc x1 x2). now apply splitlines_line.
Qed.

Lemma splitlines_line3 (x1 x2 x3 u : string) :
  one_line (x1 +:+ x2 +:+ x3) = true ->
  splitlines (x1 +:+ x2 +:+ x3 +:+ Opyplus.nl +:+ u)
  = ((x1 +:+ x2 +:+ x3) +:+ Opyplus.nl) :: splitlines u.
Proof.
  intros H. rewrite <- (append_assoc x2 x3), <- (append_assoc x1 (x2 +:+ x3)).
  now apply splitlines_line.
Qed.

End Lines.

(** X16. When the version string holds no line boundary,
    [get_multi_line_copyright_message] is six lines, each of them behind
    the prefix, then one empty line that carries no prefix. *)
Theorem get_multi_line_copyright_message_lines (version : string) (year : Z)
    (prefix : string) :
  PyStr.one_line version = true ->
  Opyplus.get_multi_line_copyright_message version year prefix
  = String.concat EmptyString
      [prefix +:+ PyStr.times "-" 45 +:+ Opyplus.nl;
       prefix +:+ ("Generated by opyplus version " +:+ version) +:+ Opyplus.nl;
       prefix +:+ ("Copyright (c) " +:+ PyStr.str year
                     +:+ ", Openergy development team") +:+ Opyplus.nl;
       prefix +:+ "http://www.openergy.fr" +:+ Opyplus.nl;
       prefix +:+ "https://github.com/openergy/opyplus" +:+ Opyplus.nl;
       prefix +:+ PyStr.times "-" 45]
    +:+ Opyplus.nl +:+ Opyplus.nl.
Proof.
  intros Hv. unfold Opyplus.get_multi_line_copyright_message, PyStr.indent.
  f_equal.
  rewrite splitlines_line by reflexivity.
  rewrite splitlines_line2 by (rewrite one_line_app, Hv; reflexivity).
  rewrite splitlines_line3
    by (rewrite !one_line_app, one_line_str; reflexivity).
  rewrite splitlines_line by reflexivity.
  rewrite splitlines_line by reflexivity.
  rewrite splitlines_last by (reflexivity || discriminate).
  reflexivity.
Qed.

Lemma get_multi_line_copyright_message_lines_witness :
  PyStr.one_line "1.4.0" = true
  /\ PyStr.splitlines (Opyplus.get_multi_line_copyright_message "1.4.0" 2024 "! ")
     = ["! ---------------------------------------------" +:+ Opyplus.nl;
        "! Generated by opyplus version 1.4.0" +:+ Opyplus.nl;
        "! Copyright (c) 2024, Openergy development team" +:+ Opyplus.nl;
        "! http://www.openergy.fr" +:+ Opyplus.nl;
        "! https://github.com/openergy/opyplus" +:+ Opyplus.nl;
        "! ---------------------------------------------" +:+ Opyplus.nl;
        Opyplus.nl].
Proof.
  assert (H : PyStr.one_line "1.4.0" = true) by reflexivity.
  split; [exact H |].
  rewrite (get_multi_line_copyright_message_lines "1.4.0" 2024 "! " H).
  reflexivity.
Defined.

(** X17. In the earlier revision the two line feeds at the end are part
    of the text that is indented: the message is seven lines, and the
    last one, which is empty, carries the prefix as well. *)
Theorem oplus_get_multi_line_copyright_message_lines (version : string) (year : Z)
    (prefix : string) :
  PyStr.one_line version = true ->
  Oplus.get_multi_line_copyright_message version year prefix
  = String.concat EmptyString
      [prefix +:+ PyStr.times "-" 45 +:+ Opyplus.nl;
       prefix +:+ ("Generated by oplus version " +:+ version) +:+ Opyplus.nl;
       prefix +:+ ("Copyright (c) " +:+ PyStr.str year
                     +:+ ", Openergy development team") +:+ Opyplus.nl;
       prefix +:+ "http://www.openergy.fr" +:+ Opyplus.nl;
       prefix +:+ "https://github.com/openergy/oplus" +:+ Opyplus.nl;
       prefix +:+ PyStr.times "-" 45 +:+ Opyplus.nl;
       prefix +:+ Opyplus.nl].
Proof.
  intros Hv. unfold Oplus.get_multi_line_copyright_message, PyStr.indent.
  f_equal.
  rewrite splitlines_line by reflexivity.
  rewrite splitlines_line2 by (rewrite one_line_app, Hv; reflexivity).
  rewrite splitlines_line3
    by (rewrite !one_line_app, one_line_str; reflexivity).
  rewrite splitlines_line by reflexivity.
  rewrite splitlines_line by reflexivity.
  rewrite splitlines_line by reflexivity.
  reflexivity.
Qed.

Lemma oplus_get_multi_line_copyright_message_lines_witness :
  PyStr.one_line "6.0.0" = true
  /\ PyStr.splitlines (Oplus.get_multi_line_copyright_message "6.0.0" 2018 "! ")
     = ["! ---------------------------------------------" +:+ Opyplus.nl;
        "! Generated by oplus version 6.0.0" +:+ Opyplus.nl;
        "! Copyright (c) 2018, Openergy development team" +:+ Opyplus.nl;
        "! http://www.openergy.fr" +:+ Opyplus.nl;
        "! https://github.com/openergy/oplus" +:+ Opyplus.nl;
        "! ---------------------------------------------" +:+ Opyplus.nl;
        "! " +:+ Opyplus.nl].
Proof.
  assert (H : PyStr.one_line "6.0.0" = true) by reflexivity.
  split; [exact H |].
  rewrite (oplus_get_multi_line_copyright_message_lines "6.0.0" 2018 "! " H).
  reflexivity.
Defined.

(** X18. The message of [get_mono_line_copyright_message] is one line
    whenever the version string is: [splitlines] gives it back whole,
    whatever the year. *)
Theorem get_mono_line_copyright_message_one_line (version : string) (year : Z) :
  PyStr.one_line version = true ->
  PyStr.splitlines (Opyplus.get_mono_line_copyright_message version year)
  = [Opyplus.get_mono_line_copyright_message version year].
Proof.
  intros Hv. apply splitlines_last; [| discriminate].
  unfold Opyplus.get_mono_line_copyright_message.
  now rewrite !one_line_app, Hv, one_line_str.
Qed.

Lemma get_mono_line_copyright_message_one_line_witness :
  PyStr.one_line "1.4.0" = true
  /\ PyStr.splitlines (Opyplus.get_mono_line_copyright_message "1.4.0" 2024)
     = ["opyplus version 1.4.0 - copyright (c) 2024 - Openergy development team"].
Proof.
  assert (H : PyStr.one_line "1.4.0" = true) by reflexivity.
  split; [exact H |].
  exact (get_mono_line_copyright_message_one_line "1.4.0" 2024 H).
Defined.

(** ** Printing an integer and reading it back *)

Section Printing.

Import PyStr.

(** The scanner of [int] on the digits that [str] prints, after a first
    digit has been read. *)
Lemma digits_after (d : Decimal.uint) (p : positive) :
  digits LitDigit (Z.pos p) (NilEmpty.string_of_uint d)
  = Some (Z.pos (Pos.of_uint_acc d p)).
Proof.
  revert p. induction d; intros p; [reflexivity | ..];
    cbn [NilEmpty.string_of_uint Pos.of_uint_acc];
    rewrite <- IHd; cbn [digits]; f_equal; try reflexivity;
    rewrite Pos2Z.inj_add, Pos2Z.inj_mul, Z.add_comm; reflexivity.
Qed.

Lemma digits_printed (d : Decimal.uint) :
  digits LitDigit 0 (NilEmpty.string_of_uint d) = Some (Z.of_uint d).
Proof.
  induction d; [reflexivity | exact IHd | ..];
    cbn [NilEmpty.string_of_uint]; apply (digits_after d).
Qed.

Lemma digits_first (d : Decimal.uint) :
  d <> Decimal.Nil ->
  digits LitStart 0 (NilEmpty.string_of_uint d) = Some (Z.of_uint d).
Proof.
  intros Hd. rewrite <- digits_printed. destruct d; [contradiction | reflexivity ..].
Qed.

Lemma printed_no_space (d : Decimal.uint) :
  d <> Decimal.Nil ->
  starts_space (NilEmpty.string_of_uint d) = false
  /\ ends_space (NilEmpty.string_of_uint d) = false.
Proof.
  intros Hd. split; [destruct d; [contradiction | reflexivity ..] |].
  induction d; [contradiction | ..];
    (destruct d; [reflexivity | ..]);
    cbn [NilEmpty.string_of_uint ends_space] in *;
    apply IHd; discriminate.
Qed.

Lemma to_uint_not_nil (p : positive) : Pos.to_uint p <> Decimal.Nil.
Proof.
  intros H. pose proof (DecimalPos.Unsigned.of_to p) as E.
  rewrite H in E. discriminate.
Qed.

Lemma parse_int_printed (d : Decimal.uint) :
  d <> Decimal.Nil ->
  parse_int (NilEmpty.string_of_uint d) = Some (Z.of_uint d)
  /\ parse_int (String "-" (NilEmpty.string_of_uint d)) = Some (- Z.of_uint d).
Proof.
  intros Hd. destruct (printed_no_space d Hd) as [Hs He].
  pose proof (digits_first d Hd) as Hdig.
  unfold parse_int, strip. split.
  - rewrite (lstrip_fixed _ Hs), (rstrip_fixed _ He).
    destruct d; [contradiction | exact Hdig ..].
  - rewrite (lstrip_fixed (String "-" _)) by reflexivity.
    rewrite rstrip_fixed by (destruct d; [contradiction | exact He ..]).
    rewrite Ascii.eqb_refl, Hdig. reflexivity.
Qed.

(** [int(str(n))] is [n]. *)
Lemma parse_int_str (n : Z) : parse_int (str n) = Some n.
Proof.
  destruct n as [| p | p]; [reflexivity | |];
    pose proof (to_uint_not_nil p) as Hp;
    pose proof (DecimalZ.of_to (Z.pos p)) as E;
    cbn [Z.to_int Z.of_int] in E;
    destruct (parse_int_printed _ Hp) as [Hpos Hneg];
    unfold str, NilZero.string_of_int, NilZero.string_of_uint;
    cbn [Z.to_int];
    destruct (Pos.to_uint p) eqn:Eu; try contradiction;
    rewrite ?Hpos, ?Hneg, E; reflexivity.
Qed.

End Printing.

(** X19. Printing integers and reading the version back: for all
    integers [a], [b] and [c], negative ones too, the string
    ["a.b.c"] made with [str] gives [(a, b, c)], and ["a.b"] gives
    [(a, b, 0)]. *)
Theorem version_str_to_version_of_str (a b c : Z) :
  Opyplus.version_str_to_version
    (PyStr.str a +:+ "." +:+ PyStr.str b +:+ "." +:+ PyStr.str c)
  = Ok [a; b; c]
  /\ Opyplus.version_str_to_version (PyStr.str a +:+ "." +:+ PyStr.str b)
     = Ok [a; b; 0].
Proof.
  split.
  - apply (version_of_literals [PyStr.str a; PyStr.str b; PyStr.str c] [a; b; c]);
      [repeat constructor; apply parse_int_str | discriminate].
  - apply (version_of_literals [PyStr.str a; PyStr.str b] [a; b]);
      [repeat constructor; apply parse_int_str | discriminate].
Qed.

(** ** More on [get_string_buffer] *)



